(** * Family-Tree-App: the tree mutation functions, the generation BFS and
      the layout of [src/index.tsx], embedded and verified.

    The TypeScript core works on plain JavaScript objects used as maps
    ([Record<string, V>]), on arrays and on numbers.  They are embedded as
    follows.

    - An object used as a map is an association list holding its own
      properties in creation order.  Reading ([get]) is a lookup by key,
      assignment ([set]) overwrites in place or appends, [delete] removes the
      key.  Enumeration ([Object_keys], [Object_values], [Object_entries])
      follows the order JavaScript prescribes: keys that are canonical array
      indices first, in ascending numeric order, then every other key in
      creation order.  A read [o[k]] that finds no own property falls
      back on [Object.prototype]: [inherited] lists the names it provides,
      [truthy_at] is the truth value of such a read, and [put] is the
      assignment [o[k] = v], which creates no property for [__proto__].
    - A JavaScript number is a [Z]: every number the core computes is an
      integer far below 2^53 (generation levels, indices and their products
      with the spacing constants), and the two divisions by 2 are exact
      (lemmas [rowWidth_even] and [layout_marriage_midpoint_exact]).  The
      one exception is a marriage coordinate computed from a spouse read
      off the prototype, whose two numbers are [NaN] ([NotNumbers]).
    - A [Set<string>] only queried with [has] is a list of its members. *)

From Stdlib Require Import String Ascii List ZArith NArith Bool Arith Lia Permutation.
Import ListNotations.

Set Implicit Arguments.

(** ** Property keys *)

(** What the embedding needs from a property key: decidable equality and the
    test "is a canonical array index", which fixes the enumeration order. *)
Class PropertyKey (K : Type) := {
  key_eqb : K -> K -> bool;
  key_eqb_spec : forall a b : K, reflect (a = b) (key_eqb a b);
  array_index : K -> option N
}.

Definition digit_of (c : ascii) : option N :=
  let n := N_of_ascii c in
  if ((48 <=? n) && (n <=? 57))%N then Some (n - 48)%N else None.

Fixpoint parse_digits (acc : N) (s : string) : option N :=
  match s with
  | EmptyString => Some acc
  | String c r =>
      match digit_of c with
      | Some d => parse_digits (10 * acc + d)%N r
      | None => None
      end
  end.

(** A string is an array index when it is the canonical decimal form of an
    integer in [0, 2^32 - 2]. *)
Definition string_array_index (s : string) : option N :=
  match s with
  | EmptyString => None
  | String "0"%char EmptyString => Some 0%N
  | String "0"%char _ => None
  | _ =>
      match parse_digits 0 s with
      | Some n => if (n <? 4294967295)%N then Some n else None
      | None => None
      end
  end.

#[export] Instance string_key : PropertyKey string := {
  key_eqb := String.eqb;
  key_eqb_spec := String.eqb_spec;
  array_index := string_array_index
}.

(** A number used as a key ([peopleByGen[gen]]) is converted to its decimal
    string: a non-negative integer becomes an array index, a negative one an
    ordinary key.  [parseInt] of that string gives the number back. *)
Definition number_array_index (z : Z) : option N :=
  if ((0 <=? z) && (z <? 4294967295))%Z then Some (Z.to_N z) else None.

#[export] Instance number_key : PropertyKey Z := {
  key_eqb := Z.eqb;
  key_eqb_spec := Z.eqb_spec;
  array_index := number_array_index
}.

(** ** Stable sorting, [Array.prototype.sort] with a numeric comparator *)

Section StableSort.
Context {A : Type} (f : A -> Z).

Fixpoint insert_by (x : A) (l : list A) : list A :=
  match l with
  | [] => [x]
  | y :: r => if (f x <=? f y)%Z then x :: y :: r else y :: insert_by x r
  end.

Fixpoint sort_by (l : list A) : list A :=
  match l with
  | [] => []
  | x :: r => insert_by x (sort_by r)
  end.

Lemma insert_by_perm x l : Permutation (insert_by x l) (x :: l).
Proof.
  induction l as [|y r IH]; simpl; [reflexivity|].
  destruct (f x <=? f y)%Z; [reflexivity|].
  rewrite IH. apply perm_swap.
Qed.

Lemma sort_by_perm l : Permutation (sort_by l) l.
Proof.
  induction l as [|x r IH]; simpl; [reflexivity|].
  rewrite insert_by_perm. now constructor.
Qed.
End StableSort.

(** ** Objects used as maps *)

Section JsObject.
Context {K V : Type} `{PropertyKey K}.

Definition JsRecord := list (K * V).

(** [o[k]] *)
Fixpoint get (k : K) (o : JsRecord) : option V :=
  match o with
  | [] => None
  | (k', v) :: r => if key_eqb k k' then Some v else get k r
  end.

(** [o[k] = v] *)
Fixpoint set (k : K) (v : V) (o : JsRecord) : JsRecord :=
  match o with
  | [] => [(k, v)]
  | (k', v') :: r => if key_eqb k k' then (k', v) :: r else (k', v') :: set k v r
  end.

(** [delete o[k]] *)
Definition delete (k : K) (o : JsRecord) : JsRecord :=
  filter (fun e => negb (key_eqb k (fst e))) o.

Definition is_index (e : K * V) : bool :=
  match array_index (fst e) with Some _ => true | None => false end.

Definition index_rank (e : K * V) : Z :=
  match array_index (fst e) with Some n => Z.of_N n | None => 0%Z end.

(** Own properties in enumeration order. *)
Definition Object_entries (o : JsRecord) : list (K * V) :=
  sort_by index_rank (filter is_index o) ++ filter (fun e => negb (is_index e)) o.

Definition Object_keys (o : JsRecord) : list K := map fst (Object_entries o).
Definition Object_values (o : JsRecord) : list V := map snd (Object_entries o).

(** The keys of an object, in creation order. *)
Definition keys (o : JsRecord) : list K := map fst o.

Lemma key_eqb_refl k : key_eqb k k = true.
Proof. destruct (key_eqb_spec k k); congruence. Qed.

Lemma key_eqb_eq a b : key_eqb a b = true <-> a = b.
Proof. destruct (key_eqb_spec a b); split; congruence. Qed.

Lemma key_eqb_neq a b : key_eqb a b = false <-> a <> b.
Proof. destruct (key_eqb_spec a b); split; congruence. Qed.

Lemma filter_split_perm (p : K * V -> bool) (l : list (K * V)) :
  Permutation (filter p l ++ filter (fun e => negb (p e)) l) l.
Proof.
  induction l as [|a l IH]; simpl; [constructor|].
  destruct (p a); simpl.
  - now constructor.
  - rewrite <- Permutation_middle. now constructor.
Qed.

Lemma Object_entries_perm o : Permutation (Object_entries o) o.
Proof.
  unfold Object_entries. rewrite sort_by_perm. apply filter_split_perm.
Qed.

Lemma Object_entries_In e o : In e (Object_entries o) <-> In e o.
Proof.
  split; apply Permutation_in; [|symmetry]; apply Object_entries_perm.
Qed.

Lemma Object_keys_perm o : Permutation (Object_keys o) (keys o).
Proof. apply Permutation_map, Object_entries_perm. Qed.

Lemma Object_keys_In k o : In k (Object_keys o) <-> In k (keys o).
Proof.
  split; apply Permutation_in; [|symmetry]; apply Object_keys_perm.
Qed.

Lemma Object_values_In v o : In v (Object_values o) <-> In v (map snd o).
Proof.
  split; apply Permutation_in; [|symmetry];
    apply Permutation_map, Object_entries_perm.
Qed.

Lemma get_In k v o : get k o = Some v -> In (k, v) o.
Proof.
  induction o as [|[k' v'] r IH]; simpl; [discriminate|].
  destruct (key_eqb_spec k k') as [->|]; intros E.
  - left. congruence.
  - right. auto.
Qed.

Lemma get_some_keys k o : get k o <> None <-> In k (keys o).
Proof.
  induction o as [|[k' v'] r IH]; simpl; [tauto|].
  destruct (key_eqb_spec k k') as [->|Hne].
  - split; [auto | discriminate].
  - rewrite IH. split; [auto | intros [E|]; [congruence | trivial]].
Qed.

Lemma get_none_keys k o : get k o = None <-> ~ In k (keys o).
Proof.
  rewrite <- get_some_keys. destruct (get k o); split; try congruence.
  intros E. exfalso. apply E. discriminate.
Qed.

Lemma get_set_eq k v o : get k (set k v o) = Some v.
Proof.
  induction o as [|[k' v'] r IH]; simpl.
  - now rewrite key_eqb_refl.
  - destruct (key_eqb k k') eqn:E; simpl; rewrite E; auto.
Qed.

Lemma get_set_neq k k' v o : k' <> k -> get k' (set k v o) = get k' o.
Proof.
  intros Hne. induction o as [|[k2 v2] r IH]; simpl.
  - apply key_eqb_neq in Hne. now rewrite Hne.
  - destruct (key_eqb_spec k k2) as [->|]; simpl.
    + apply key_eqb_neq in Hne. now rewrite Hne.
    + now rewrite IH.
Qed.

Lemma keys_set k v o :
  keys (set k v o) = match get k o with Some _ => keys o | None => keys o ++ [k] end.
Proof.
  induction o as [|[k2 v2] r IH]; simpl; [reflexivity|].
  destruct (key_eqb k k2); simpl; [reflexivity|].
  rewrite IH. now destruct (get k r).
Qed.

Lemma In_keys_set k' k v o : In k' (keys (set k v o)) <-> k' = k \/ In k' (keys o).
Proof.
  rewrite keys_set. destruct (get k o) eqn:E.
  - split; [auto|]. intros [->|]; [|trivial].
    apply get_some_keys. congruence.
  - rewrite in_app_iff. simpl. intuition.
Qed.

(** Filtering on keys commutes with lookup. *)
Lemma get_filter_key (p : K -> bool) k o :
  get k (filter (fun e => p (fst e)) o) = if p k then get k o else None.
Proof.
  induction o as [|[k' v'] r IH]; simpl; [now destruct (p k)|].
  destruct (p k') eqn:Ep; simpl.
  - destruct (key_eqb_spec k k') as [->|]; [now rewrite Ep | apply IH].
  - destruct (key_eqb_spec k k') as [->|]; [now rewrite IH, Ep | apply IH].
Qed.

Lemma get_delete k k' o :
  get k' (delete k o) = if key_eqb k k' then None else get k' o.
Proof.
  unfold delete. rewrite (get_filter_key (fun x => negb (key_eqb k x))).
  now destruct (key_eqb k k').
Qed.
End JsObject.

Arguments JsRecord K V : clear implicits.

(** ** Data model *)

Inductive Gender := male | female.

Record Person := {
  p_id : string;
  name : string;
  gender : Gender;
  birthYear : option Z;
  deathYear : option Z;
  notes : option string;
  external : option bool;
  email : option string;
  phone : option string
}.

Record Marriage := {
  m_id : string;
  spouse1Id : string;
  spouse2Id : string;
  marriageYear : option Z
}.

Record ChildLink := {
  marriageId : string;
  personId : string
}.

Record FamilyTree := {
  persons : JsRecord string Person;
  marriages : JsRecord string Marriage;
  children : list ChildLink
}.

(** ** Constants *)

Definition HORIZONTAL_SPACING : Z := 300.
Definition VERTICAL_SPACING : Z := 260.

(** ** Tree mutation functions *)

Definition updatePerson (tree : FamilyTree) (person : Person) : FamilyTree :=
  {| persons := set (p_id person) person (persons tree);
     marriages := marriages tree;
     children := children tree |}.

Definition addPerson (tree : FamilyTree) (person : Person) : FamilyTree :=
  {| persons := set (p_id person) person (persons tree);
     marriages := marriages tree;
     children := children tree |}.

Definition addMarriage (tree : FamilyTree) (marriage : Marriage) : FamilyTree :=
  {| persons := persons tree;
     marriages := set (m_id marriage) marriage (marriages tree);
     children := children tree |}.

(** [link.marriageId === marriageId && link.personId === personId] *)
Definition is_link (mId pId : string) (link : ChildLink) : bool :=
  (marriageId link =? mId)%string && (personId link =? pId)%string.

Definition addChild (tree : FamilyTree) (mId pId : string) : FamilyTree :=
  if existsb (is_link mId pId) (children tree) then tree
  else {| persons := persons tree;
          marriages := marriages tree;
          children := children tree ++ [ {| marriageId := mId; personId := pId |} ] |}.

(** [m.spouse1Id === id || m.spouse2Id === id] *)
Definition involves (id : string) (m : Marriage) : bool :=
  (spouse1Id m =? id)%string || (spouse2Id m =? id)%string.

(** The [forEach] over [Object.keys(newMarriages)] of [deletePerson]: one
    step per key.  [newMarriages[id]] is always defined there, since [id] is
    a key of the object and no key is met twice; the [None] branch stands for
    the access to a property of [undefined], which does not arise. *)
Definition prune_step (pId : string) (newMarriages : JsRecord string Marriage)
    (id : string) : JsRecord string Marriage :=
  match get id newMarriages with
  | Some m => if involves pId m then delete id newMarriages else newMarriages
  | None => newMarriages
  end.

Definition prune_marriages (pId : string) (ms : JsRecord string Marriage)
    : JsRecord string Marriage :=
  fold_left (prune_step pId) (Object_keys ms) ms.

(** [k] is an own key of [o]. *)
Definition has {K V} `{PropertyKey K} (k : K) (o : JsRecord K V) : bool :=
  match get k o with Some _ => true | None => false end.

(** The names every plain object inherits from [Object.prototype].  Read
    through an object without such an own property, each gives a truthy
    value: a function, and for [__proto__] the prototype object. *)
Definition inherited (k : string) : bool :=
  existsb (String.eqb k)
    ["constructor"; "hasOwnProperty"; "isPrototypeOf"; "propertyIsEnumerable";
     "toLocaleString"; "toString"; "valueOf"; "__proto__";
     "__defineGetter__"; "__defineSetter__"; "__lookupGetter__";
     "__lookupSetter__"]%string.

Definition proto_name : string := "__proto__"%string.

(** The truth value of [o[k]] for a plain object whose own values are
    objects: an own value is truthy, and so is what the prototype provides. *)
Definition truthy_at {V} (k : string) (o : JsRecord string V) : bool :=
  match get k o with Some _ => true | None => inherited k end.

(** [o[k] = v] on an object built from [{}] by such assignments: it defines
    or overwrites the own property [k], except for [__proto__], where the
    inherited setter takes the value and no own property appears. *)
Definition put {V} (k : string) (v : V) (o : JsRecord string V) : JsRecord string V :=
  if (k =? proto_name)%string then o else set k v o.

Lemma put_proto {V} (v : V) o : put proto_name v o = o.
Proof. reflexivity. Qed.

Lemma put_other {V} k (v : V) o : k <> proto_name -> put k v o = set k v o.
Proof.
  intros Hk. unfold put. now destruct (String.eqb_spec k proto_name).
Qed.

Lemma put_cases {V} k (v : V) o :
  (k = proto_name /\ put k v o = o) \/ (k <> proto_name /\ put k v o = set k v o).
Proof.
  unfold put. destruct (String.eqb_spec k proto_name); auto.
Qed.

Lemma get_put_eq {V} k (v : V) o : k <> proto_name -> get k (put k v o) = Some v.
Proof. intros Hk. rewrite put_other by exact Hk. apply get_set_eq. Qed.

Lemma get_put_neq {V} k k' (v : V) o : k' <> k -> get k' (put k v o) = get k' o.
Proof.
  intros Hne. destruct (put_cases k v o) as [[_ ->]|[_ ->]]; [reflexivity|].
  now apply get_set_neq.
Qed.

Lemma get_put_inv {V} k k' (v l : V) o :
  get k' (put k v o) = Some l -> (k' = k /\ l = v) \/ get k' o = Some l.
Proof.
  destruct (put_cases k v o) as [[_ ->]|[_ ->]]; [auto|].
  destruct (String.eqb_spec k' k) as [->|Hne].
  - rewrite get_set_eq. intros E. inversion E. auto.
  - rewrite get_set_neq by exact Hne. auto.
Qed.

Lemma In_keys_put {V} k (v : V) o x :
  In x (keys (put k v o)) <-> In x (keys o) \/ (x = k /\ k <> proto_name).
Proof.
  destruct (put_cases k v o) as [[Hk ->]|[Hk ->]]; [tauto|].
  rewrite In_keys_set. tauto.
Qed.

(** An object built from [{}] by assignments has no own [__proto__]. *)
Lemma get_put_proto {V} k (v : V) o :
  get proto_name o = None -> get proto_name (put k v o) = None.
Proof.
  intros Ho. destruct (put_cases k v o) as [[_ ->]|[Hk ->]]; [exact Ho|].
  rewrite get_set_neq; [exact Ho|congruence].
Qed.

Lemma inherited_proto : inherited proto_name = true.
Proof. reflexivity. Qed.

Lemma truthy_at_has {V} k (o : JsRecord string V) :
  truthy_at k o = has k o || inherited k.
Proof. unfold truthy_at, has. now destruct (get k o). Qed.

Definition deletePerson (tree : FamilyTree) (pId : string) : FamilyTree :=
  let newPersons := delete pId (persons tree) in
  let newMarriages := prune_marriages pId (marriages tree) in
  let newChildren :=
    filter (fun link =>
              negb (personId link =? pId)%string
              && truthy_at (marriageId link) newMarriages)
           (children tree) in
  {| persons := newPersons; marriages := newMarriages; children := newChildren |}.

Definition getChildrenOfMarriage (tree : FamilyTree) (mId : string) : list string :=
  map personId (filter (fun link => (marriageId link =? mId)%string) (children tree)).

(** [id => id]: a string is truthy when it is not empty. *)
Definition truthy (s : string) : bool :=
  match s with EmptyString => false | _ => true end.

Definition getParentsOfPerson (tree : FamilyTree) (pId : string) : list string :=
  match find (fun l => (personId l =? pId)%string) (children tree) with
  | None => []
  | Some link =>
      match get (marriageId link) (marriages tree) with
      | None => []
      | Some marriage => filter truthy [spouse1Id marriage; spouse2Id marriage]
      end
  end.

(** ** Properties of the mutation functions *)

Section ListFacts.
Context {A : Type}.

Lemma filter_all_true (p : A -> bool) l :
  (forall a, In a l -> p a = true) -> filter p l = l.
Proof.
  induction l as [|a l IH]; simpl; intros Hall; [reflexivity|].
  rewrite (Hall a) by auto. f_equal. apply IH. auto.
Qed.

Lemma filter_idem (p : A -> bool) l : filter p (filter p l) = filter p l.
Proof.
  apply filter_all_true. intros a Ha. now apply filter_In in Ha.
Qed.

Lemma filter_filter (p q : A -> bool) l :
  filter p (filter q l) = filter (fun a => q a && p a) l.
Proof.
  induction l as [|a l IH]; simpl; [reflexivity|].
  destruct (q a); simpl; [destruct (p a)|]; now rewrite IH.
Qed.

Lemma existsb_filter_nil (p : A -> bool) l :
  existsb p l = false <-> filter p l = [].
Proof.
  induction l as [|a l IH]; simpl; [tauto|].
  destruct (p a); simpl; [split; discriminate | exact IH].
Qed.
End ListFacts.

(** Number of child links stating that [pId] is a child of [mId]. *)
Definition count_links (mId pId : string) (tree : FamilyTree) : nat :=
  length (filter (is_link mId pId) (children tree)).

Lemma is_link_refl mId pId :
  is_link mId pId {| marriageId := mId; personId := pId |} = true.
Proof. unfold is_link. simpl. now rewrite !String.eqb_refl. Qed.

Lemma addChild_present tree mId pId :
  existsb (is_link mId pId) (children tree) = true ->
  addChild tree mId pId = tree.
Proof. unfold addChild. now intros ->. Qed.

Lemma addChild_contains tree mId pId :
  existsb (is_link mId pId) (children (addChild tree mId pId)) = true.
Proof.
  unfold addChild.
  destruct (existsb (is_link mId pId) (children tree)) eqn:E; [exact E|].
  simpl. rewrite existsb_app. simpl. rewrite is_link_refl.
  now rewrite orb_true_r.
Qed.

(** The marriages [deletePerson] removes: those whose entry names [pId]. *)
Definition doomed (pId : string) (ms : JsRecord string Marriage) (k : string) : bool :=
  match get k ms with Some m => involves pId m | None => false end.

Definition kfilter {V} (q : string -> bool) (o : JsRecord string V) : JsRecord string V :=
  filter (fun e => q (fst e)) o.

Lemma prune_fold pId ms ks : forall q,
  fold_left (prune_step pId) ks (kfilter q ms) =
  kfilter (fun k => q k && negb (existsb (String.eqb k) ks && doomed pId ms k)) ms.
Proof.
  induction ks as [|id r IH]; intros q; simpl.
  - apply filter_ext. intros [k v]. simpl. now rewrite andb_true_r.
  - assert (Hstep : exists q',
        prune_step pId (kfilter q ms) id = kfilter q' ms /\
        forall k, q' k && negb (existsb (String.eqb k) r && doomed pId ms k)
                  = q k && negb (((k =? id)%string || existsb (String.eqb k) r)
                                 && doomed pId ms k)).
    { unfold prune_step, kfilter at 1 2.
      rewrite (get_filter_key q).
      destruct (q id) eqn:Eq; [destruct (get id ms) as [m|] eqn:Eg;
                               [destruct (involves pId m) eqn:Ei|]|].
      - exists (fun k => q k && negb (id =? k)%string). split.
        + unfold delete. rewrite filter_filter. reflexivity.
        + intros k. rewrite (String.eqb_sym id k).
          destruct (String.eqb_spec k id) as [->|]; simpl.
          * unfold doomed. rewrite Eg, Ei, Eq. reflexivity.
          * now rewrite andb_true_r.
      - exists q. split; [reflexivity|]. intros k.
        destruct (String.eqb_spec k id) as [->|]; simpl; [|reflexivity].
        unfold doomed. rewrite Eg, Ei, !andb_false_r. reflexivity.
      - exists q. split; [reflexivity|]. intros k.
        destruct (String.eqb_spec k id) as [->|]; simpl; [|reflexivity].
        unfold doomed. rewrite Eg, !andb_false_r. reflexivity.
      - exists q. split; [reflexivity|]. intros k.
        destruct (String.eqb_spec k id) as [->|]; simpl; [|reflexivity].
        now rewrite Eq. }
    destruct Hstep as [q' [-> Hq']]. rewrite IH.
    apply filter_ext. intros [k v]. simpl. apply Hq'.
Qed.

(** [deletePerson] keeps exactly the marriages that do not name [pId]. *)
Lemma prune_marriages_filter pId ms :
  prune_marriages pId ms = kfilter (fun k => negb (doomed pId ms k)) ms.
Proof.
  unfold prune_marriages.
  replace ms with (kfilter (fun _ => true) ms) at 2
    by (apply filter_all_true; reflexivity).
  rewrite prune_fold. apply filter_ext_in. intros [k v] Hin. simpl.
  replace (existsb (String.eqb k) (Object_keys ms)) with true; [reflexivity|].
  symmetry. apply existsb_exists. exists k. split; [|apply String.eqb_refl].
  apply Object_keys_In. unfold keys. apply in_map_iff. now exists (k, v).
Qed.

Lemma get_prune_marriages pId ms k :
  get k (prune_marriages pId ms) = if doomed pId ms k then None else get k ms.
Proof.
  rewrite prune_marriages_filter. unfold kfilter.
  rewrite (get_filter_key (fun k => negb (doomed pId ms k))).
  now destruct (doomed pId ms k).
Qed.

Lemma prune_marriages_idem pId ms :
  prune_marriages pId (prune_marriages pId ms) = prune_marriages pId ms.
Proof.
  rewrite (prune_marriages_filter pId (prune_marriages pId ms)).
  apply filter_all_true. intros [k v] Hin. simpl.
  unfold doomed at 1. rewrite get_prune_marriages.
  rewrite prune_marriages_filter in Hin. apply filter_In in Hin. simpl in Hin.
  destruct Hin as [_ Hk]. destruct (doomed pId ms k) eqn:Ed; [discriminate|].
  unfold doomed in Ed. now rewrite Ed.
Qed.

Lemma involves_false pId m :
  involves pId m = false <-> spouse1Id m <> pId /\ spouse2Id m <> pId.
Proof.
  unfold involves. rewrite orb_false_iff, !String.eqb_neq. tauto.
Qed.

(** ** Generation assignment: [computeGenerations] *)

(** The three variables of the traversal. *)
Record bfs_state := {
  queue : list (string * Z);
  generations : JsRecord string Z;
  visited : list string
}.

(** [visited.has(id)] *)
Definition mem (id : string) (l : list string) : bool := existsb (String.eqb id) l.

(** [if (!visited.has(id)) { visited.add(id); generations[id] = level;
    queue.push({ id, level }); }] *)
Definition visit (id : string) (level : Z) (st : bfs_state) : bfs_state :=
  if mem id (visited st) then st
  else {| queue := queue st ++ [(id, level)];
          generations := put id level (generations st);
          visited := id :: visited st |}.

(** The same behind the guard [id && ...], used for spouses and parents. *)
Definition visit_truthy (id : string) (level : Z) (st : bfs_state) : bfs_state :=
  if truthy id then visit id level st else st.

(** [m.spouse1Id === id ? m.spouse2Id : m.spouse1Id] *)
Definition spouse_of (id : string) (m : Marriage) : string :=
  if (spouse1Id m =? id)%string then spouse2Id m else spouse1Id m.

(** Body of [for (const m of personMarriages)]. *)
Definition explore_marriage (tree : FamilyTree) (id : string) (level : Z)
    (st : bfs_state) (m : Marriage) : bfs_state :=
  let st := visit_truthy (spouse_of id m) level st in
  fold_left (fun st childId => visit childId (level + 1) st)
            (getChildrenOfMarriage tree (m_id m)) st.

(** The step towards the parents: the first child link of [id], if any. *)
Definition explore_parents (tree : FamilyTree) (id : string) (level : Z)
    (st : bfs_state) : bfs_state :=
  match find (fun link => (personId link =? id)%string) (children tree) with
  | Some childLink =>
      match get (marriageId childLink) (marriages tree) with
      | Some marriage =>
          fold_left (fun st pId => visit_truthy pId (level - 1) st)
                    [spouse1Id marriage; spouse2Id marriage] st
      | None => st
      end
  | None => st
  end.

(** One iteration of [while (queue.length > 0)]. *)
Definition bfs_iteration (tree : FamilyTree) (st : bfs_state) : bfs_state :=
  match queue st with
  | [] => st
  | (id, level) :: rest =>
      let st := {| queue := rest; generations := generations st;
                   visited := visited st |} in
      let personMarriages :=
        filter (involves id) (Object_values (marriages tree)) in
      let st := fold_left (explore_marriage tree id level) personMarriages st in
      explore_parents tree id level st
  end.

(** The loop, run for at most [fuel] iterations. *)
Fixpoint bfs_loop (tree : FamilyTree) (fuel : nat) (st : bfs_state) : bfs_state :=
  match fuel with
  | O => st
  | S fuel' =>
      match queue st with
      | [] => st
      | _ :: _ => bfs_loop tree fuel' (bfs_iteration tree st)
      end
  end.

(** Number of iterations the loop executes within [fuel]. *)
Fixpoint bfs_iterations (tree : FamilyTree) (fuel : nat) (st : bfs_state) : nat :=
  match fuel with
  | O => O
  | S fuel' =>
      match queue st with
      | [] => O
      | _ :: _ => S (bfs_iterations tree fuel' (bfs_iteration tree st))
      end
  end.

Definition bfs_init (startId : string) : bfs_state :=
  {| queue := [(startId, 0%Z)];
     generations := put startId 0%Z [];
     visited := [startId] |}.

(** Enough iterations for any traversal of [tree] (lemma [bfs_fuel_enough]):
    one per id a marriage or a child link mentions, and one for the start. *)
Definition bfs_fuel (tree : FamilyTree) : nat :=
  S (2 * length (marriages tree) + length (children tree)).

Definition computeGenerations (tree : FamilyTree) (startId : string)
    : JsRecord string Z :=
  if truthy_at startId (persons tree)
  then generations (bfs_loop tree (bfs_fuel tree) (bfs_init startId))
  else [].

(** Iterations of the [while] loop in a call of [computeGenerations]. *)
Definition iterations (tree : FamilyTree) (startId : string) : nat :=
  if truthy_at startId (persons tree)
  then bfs_iterations tree (bfs_fuel tree) (bfs_init startId)
  else O.

(** ** Example trees *)

Definition mkPerson (id : string) (g : Gender) : Person :=
  {| p_id := id; name := id; gender := g; birthYear := None; deathYear := None;
     notes := None; external := None; email := None; phone := None |}.

Definition mkMarriage (id s1 s2 : string) : Marriage :=
  {| m_id := id; spouse1Id := s1; spouse2Id := s2; marriageYear := None |}.

Definition mkLink (mId pId : string) : ChildLink :=
  {| marriageId := mId; personId := pId |}.

Open Scope string_scope.

(** R married to S, their child C married to D, whose child is E.  The
    flags choose which spouse sits in which slot of the two marriages, and
    the order in which marriages and child links were created. *)
Definition five_person_tree (swapRS swapCD reversed : bool) : FamilyTree :=
  let m1 := if swapRS then mkMarriage "m1" "S" "R" else mkMarriage "m1" "R" "S" in
  let m2 := if swapCD then mkMarriage "m2" "D" "C" else mkMarriage "m2" "C" "D" in
  {| persons := [("R", mkPerson "R" male); ("S", mkPerson "S" female);
                 ("C", mkPerson "C" male); ("D", mkPerson "D" female);
                 ("E", mkPerson "E" female)];
     marriages := if reversed then [("m2", m2); ("m1", m1)]
                  else [("m1", m1); ("m2", m2)];
     children := if reversed then [mkLink "m2" "E"; mkLink "m1" "C"]
                 else [mkLink "m1" "C"; mkLink "m2" "E"] |}.

Definition tree_RSCDE : FamilyTree := five_person_tree false false false.

(** A and B are married with child C; B is also married to C. *)
Definition tree_cross : FamilyTree :=
  {| persons := [("A", mkPerson "A" male); ("B", mkPerson "B" female);
                 ("C", mkPerson "C" male)];
     marriages := [("m1", mkMarriage "m1" "A" "B"); ("m2", mkMarriage "m2" "C" "B")];
     children := [mkLink "m1" "C"] |}.

(** The five-person tree and a person Z related to nobody. *)
Definition tree_island : FamilyTree :=
  addPerson tree_RSCDE (mkPerson "Z" female).

(** A and X, and a child link of A whose [marriageId] is a name every
    object inherits. *)
Definition tree_stray_link : FamilyTree :=
  {| persons := [("A", mkPerson "A" male); ("X", mkPerson "X" female)];
     marriages := [];
     children := [mkLink "toString" "A"] |}.

(** No persons, and a marriage between two names every object inherits. *)
Definition tree_inherited_spouses : FamilyTree :=
  {| persons := [];
     marriages := [("m9", mkMarriage "m9" "constructor" "toString")];
     children := [] |}.

(** [addMarriage] does not check its spouse ids: A married to an id that is
    no key of [persons]. *)
Definition tree_dangling : FamilyTree :=
  addMarriage (addPerson {| persons := []; marriages := []; children := [] |}
                         (mkPerson "A" male))
              (mkMarriage "m1" "A" "B").

Close Scope string_scope.

(** ** Termination of the traversal *)

Section FoldFacts.
Context {S A : Type} (P : S -> Prop) (f : S -> A -> S).

Lemma fold_left_preserves l :
  (forall s a, In a l -> P s -> P (f s a)) ->
  forall s, P s -> P (fold_left f l s).
Proof.
  induction l as [|a l IH]; simpl; intros Hf s Hs; [exact Hs|].
  apply IH; auto.
Qed.
End FoldFacts.

Lemma filter_length_le {A} (p q : A -> bool) l :
  (forall x, q x = true -> p x = true) ->
  length (filter q l) <= length (filter p l).
Proof.
  intros Hqp. induction l as [|x l IH]; simpl; [lia|].
  destruct (q x) eqn:Eq.
  - rewrite (Hqp x Eq). simpl. lia.
  - destruct (p x); simpl; lia.
Qed.

Lemma filter_length_lt {A} (p q : A -> bool) a l :
  (forall x, q x = true -> p x = true) ->
  In a l -> p a = true -> q a = false ->
  length (filter q l) < length (filter p l).
Proof.
  intros Hqp. induction l as [|x l IH]; simpl; [tauto|].
  intros [->|Hin] Hp Hq.
  - rewrite Hp, Hq. simpl.
    pose proof (filter_length_le p q l Hqp). lia.
  - specialize (IH Hin Hp Hq). destruct (q x) eqn:Eq.
    + rewrite (Hqp x Eq). simpl. lia.
    + destruct (p x); simpl; lia.
Qed.

(** Every id the traversal can reach from [tree] lies in [U]. *)
Definition covers (U : list string) (tree : FamilyTree) : Prop :=
  (forall k m, In (k, m) (marriages tree) ->
     (truthy (spouse1Id m) = true -> In (spouse1Id m) U) /\
     (truthy (spouse2Id m) = true -> In (spouse2Id m) U)) /\
  (forall l, In l (children tree) -> In (personId l) U).

(** The ids marriages and child links mention. *)
Definition mentioned (tree : FamilyTree) : list string :=
  flat_map (fun e => [spouse1Id (snd e); spouse2Id (snd e)]) (marriages tree)
  ++ map personId (children tree).

Definition unvisited (U : list string) (st : bfs_state) : list string :=
  filter (fun x => negb (mem x (visited st))) U.

(** Pending queue entries plus ids of [U] not yet visited: every iteration
    decreases it. *)
Definition bfs_measure (U : list string) (st : bfs_state) : nat :=
  length (queue st) + length (unvisited U st).

Section Termination.
Variable tree : FamilyTree.
Variable U : list string.
Hypothesis Hcov : covers U tree.

Lemma visit_measure id level st :
  In id U -> bfs_measure U (visit id level st) <= bfs_measure U st.
Proof.
  intros Hin. unfold visit. destruct (mem id (visited st)) eqn:Em; [lia|].
  assert (length (filter (fun x => negb (mem x (id :: visited st))) U)
          < length (filter (fun x => negb (mem x (visited st))) U));
    [|unfold bfs_measure, unvisited; cbn [queue visited];
      rewrite length_app; cbn [length]; lia].
  apply filter_length_lt with (a := id); auto.
  - intros x. unfold mem. simpl. destruct (x =? id)%string; simpl; congruence.
  - now rewrite Em.
  - unfold mem. simpl. now rewrite String.eqb_refl.
Qed.

Lemma visit_truthy_measure id level st :
  (truthy id = true -> In id U) ->
  bfs_measure U (visit_truthy id level st) <= bfs_measure U st.
Proof.
  intros Hin. unfold visit_truthy. destruct (truthy id); [|lia].
  apply visit_measure. auto.
Qed.

Lemma marriage_value_entry (m : Marriage) :
  In m (Object_values (marriages tree)) -> exists k, In (k, m) (marriages tree).
Proof.
  intros Hin. apply (proj1 (Object_values_In _ _)) in Hin.
  apply in_map_iff in Hin.
  destruct Hin as [[k m'] [E Hin]]. simpl in E. subst. now exists k.
Qed.

Lemma getChildrenOfMarriage_In mId c :
  In c (getChildrenOfMarriage tree mId) <->
  exists l, In l (children tree) /\ marriageId l = mId /\ personId l = c.
Proof.
  unfold getChildrenOfMarriage. rewrite in_map_iff. split.
  - intros [l [E Hin]]. apply filter_In in Hin. destruct Hin as [Hin Hm].
    apply String.eqb_eq in Hm. eauto.
  - intros [l [Hin [Hm E]]]. exists l. split; [exact E|].
    apply filter_In. split; [exact Hin|]. now apply String.eqb_eq.
Qed.

Lemma spouse_of_cases id m :
  spouse_of id m = spouse1Id m \/ spouse_of id m = spouse2Id m.
Proof. unfold spouse_of. destruct (spouse1Id m =? id)%string; auto. Qed.

Lemma explore_marriage_measure id level st m n :
  In m (Object_values (marriages tree)) ->
  bfs_measure U st <= n ->
  bfs_measure U (explore_marriage tree id level st m) <= n.
Proof.
  intros Hm Hn. unfold explore_marriage.
  destruct (marriage_value_entry m Hm) as [k Hk].
  destruct Hcov as [Hsp Hch]. destruct (Hsp k m Hk) as [H1 H2].
  apply fold_left_preserves with (P := fun s => bfs_measure U s <= n).
  - intros s c Hc Hs. etransitivity; [apply visit_measure|exact Hs].
    apply getChildrenOfMarriage_In in Hc. destruct Hc as [l [Hl [_ <-]]]. auto.
  - etransitivity; [apply visit_truthy_measure|exact Hn].
    destruct (spouse_of_cases id m) as [-> | ->]; auto.
Qed.

Lemma explore_parents_measure id level st n :
  bfs_measure U st <= n ->
  bfs_measure U (explore_parents tree id level st) <= n.
Proof.
  intros Hn. unfold explore_parents.
  destruct (find _ (children tree)) as [childLink|]; [|exact Hn].
  destruct (get (marriageId childLink) (marriages tree)) as [m|] eqn:Eg; [|exact Hn].
  apply get_In in Eg. destruct Hcov as [Hsp _]. destruct (Hsp _ _ Eg) as [H1 H2].
  simpl.
  etransitivity; [apply visit_truthy_measure; exact H2|].
  etransitivity; [apply visit_truthy_measure; exact H1|exact Hn].
Qed.

(** An iteration consumes one unit of the measure. *)
Lemma bfs_iteration_measure st :
  queue st <> [] ->
  bfs_measure U (bfs_iteration tree st) < bfs_measure U st.
Proof.
  intros Hq. unfold bfs_iteration.
  destruct (queue st) as [|[id level] rest] eqn:Eq; [congruence|].
  set (st0 := {| queue := rest; generations := generations st; visited := visited st |}).
  assert (H0 : bfs_measure U st0 <= bfs_measure U st - 1).
  { unfold bfs_measure, unvisited. simpl. rewrite Eq. simpl. lia. }
  assert (Hpos : 0 < bfs_measure U st).
  { unfold bfs_measure. rewrite Eq. simpl. lia. }
  enough (bfs_measure U
            (explore_parents tree id level
               (fold_left (explore_marriage tree id level)
                  (filter (involves id) (Object_values (marriages tree))) st0))
          <= bfs_measure U st - 1) by lia.
  apply explore_parents_measure.
  apply fold_left_preserves with (P := fun s => bfs_measure U s <= bfs_measure U st - 1);
    [|exact H0].
  intros s m Hm Hs. apply explore_marriage_measure; [|exact Hs].
  apply filter_In in Hm. tauto.
Qed.

Lemma bfs_loop_exits fuel : forall st,
  bfs_measure U st <= fuel -> queue (bfs_loop tree fuel st) = [].
Proof.
  induction fuel as [|fuel IH]; intros st Hm; simpl.
  - unfold bfs_measure in Hm. destruct (queue st); [reflexivity|simpl in Hm; lia].
  - destruct (queue st) as [|e rest] eqn:Eq; [exact Eq|].
    apply IH. assert (Hq : queue st <> []) by congruence.
    pose proof (bfs_iteration_measure st Hq). lia.
Qed.

Lemma bfs_iterations_bound fuel : forall st,
  bfs_iterations tree fuel st <= bfs_measure U st.
Proof.
  induction fuel as [|fuel IH]; intros st; simpl; [lia|].
  destruct (queue st) as [|e rest] eqn:Eq; [lia|].
  assert (Hq : queue st <> []) by congruence.
  pose proof (bfs_iteration_measure st Hq). specialize (IH (bfs_iteration tree st)).
  lia.
Qed.
End Termination.

(** Once the queue is empty more fuel changes nothing. *)
Lemma bfs_loop_more_fuel tree fuel : forall st fuel',
  queue (bfs_loop tree fuel st) = [] -> fuel <= fuel' ->
  bfs_loop tree fuel' st = bfs_loop tree fuel st.
Proof.
  induction fuel as [|fuel IH]; intros st fuel' Hq Hle; simpl in *.
  - destruct fuel'; simpl; [reflexivity|]. now rewrite Hq.
  - destruct fuel' as [|fuel']; [lia|]. simpl.
    destruct (queue st); [reflexivity|]. apply IH; [exact Hq|lia].
Qed.

Lemma bfs_iterations_more_fuel tree fuel : forall st fuel',
  queue (bfs_loop tree fuel st) = [] -> fuel <= fuel' ->
  bfs_iterations tree fuel' st = bfs_iterations tree fuel st.
Proof.
  induction fuel as [|fuel IH]; intros st fuel' Hq Hle; simpl in *.
  - destruct fuel'; simpl; [reflexivity|]. now rewrite Hq.
  - destruct fuel' as [|fuel']; [lia|]. simpl.
    destruct (queue st); [reflexivity|]. f_equal. apply IH; [exact Hq|lia].
Qed.

Lemma covers_mentioned tree : covers (mentioned tree) tree.
Proof.
  unfold covers, mentioned. split.
  - intros k m Hin.
    assert (Hs : forall s, In s [spouse1Id m; spouse2Id m] ->
                           In s (flat_map (fun e => [spouse1Id (snd e); spouse2Id (snd e)])
                                          (marriages tree))).
    { intros s Hs. apply in_flat_map. exists (k, m). auto. }
    split; intros _; apply in_or_app; left; apply Hs; simpl; auto.
  - intros l Hin. apply in_or_app. right. now apply in_map.
Qed.

Lemma mentioned_length tree :
  length (mentioned tree) = 2 * length (marriages tree) + length (children tree).
Proof.
  unfold mentioned. rewrite length_app, length_map. f_equal.
  induction (marriages tree) as [|e l IH]; simpl; [reflexivity|]. lia.
Qed.

Lemma bfs_measure_init_mentioned tree startId :
  bfs_measure (mentioned tree) (bfs_init startId) <= bfs_fuel tree.
Proof.
  pose proof (filter_length_le (fun _ => true)
                (fun x => negb (mem x (visited (bfs_init startId))))
                (mentioned tree) (fun _ _ => eq_refl)) as Hle.
  rewrite (filter_all_true (fun _ => true)) in Hle by reflexivity.
  rewrite mentioned_length in Hle.
  unfold bfs_measure, bfs_fuel, unvisited. cbn [queue bfs_init length] in *. lia.
Qed.

(** The fuel of [computeGenerations] is never exhausted: the loop stops
    because the queue is empty. *)
Lemma bfs_fuel_enough tree startId :
  queue (bfs_loop tree (bfs_fuel tree) (bfs_init startId)) = [].
Proof.
  apply bfs_loop_exits with (U := mentioned tree).
  - apply covers_mentioned.
  - apply bfs_measure_init_mentioned.
Qed.

(** [iterations] counts the iterations of the unbounded loop. *)
Lemma iterations_fuel_independent tree startId fuel :
  bfs_fuel tree <= fuel ->
  bfs_iterations tree fuel (bfs_init startId)
  = bfs_iterations tree (bfs_fuel tree) (bfs_init startId).
Proof.
  intros Hle. apply bfs_iterations_more_fuel; [apply bfs_fuel_enough|exact Hle].
Qed.

(** Every spouse id and every child id is a key of [persons]. *)
Definition references_resolve (tree : FamilyTree) : Prop :=
  covers (keys (persons tree)) tree.

Lemma bfs_measure_init_persons tree startId :
  has startId (persons tree) = true ->
  bfs_measure (keys (persons tree)) (bfs_init startId) <= length (persons tree).
Proof.
  intros Hhas.
  assert (Hin : In startId (keys (persons tree))).
  { apply get_some_keys. unfold has in Hhas.
    destruct (get startId (persons tree)); [discriminate|discriminate]. }
  assert (Hlt : length (filter (fun x => negb (mem x (visited (bfs_init startId))))
                               (keys (persons tree)))
                < length (filter (fun _ => true) (keys (persons tree)))).
  { apply filter_length_lt with (a := startId); auto.
    unfold mem. simpl. now rewrite String.eqb_refl. }
  rewrite (filter_all_true (fun _ => true)) in Hlt by reflexivity.
  unfold keys in Hlt at 2. rewrite length_map in Hlt.
  unfold bfs_measure, unvisited. cbn [queue bfs_init length] in *. lia.
Qed.

(** ** What the traversal assigns *)

Section Assigned.
Variable tree : FamilyTree.
Variable startId : string.

(** The assignments the traversal can make: the start at level 0, then one
    constructor per kind of edge the loop body follows. *)
Inductive assigned : string -> Z -> Prop :=
| assigned_start : assigned startId 0
| assigned_spouse id level m :
    assigned id level ->
    In m (Object_values (marriages tree)) -> involves id m = true ->
    truthy (spouse_of id m) = true ->
    assigned (spouse_of id m) level
| assigned_child id level m l :
    assigned id level ->
    In m (Object_values (marriages tree)) -> involves id m = true ->
    In l (children tree) -> marriageId l = m_id m ->
    assigned (personId l) (level + 1)
| assigned_parent id level l m p :
    assigned id level ->
    find (fun link => (personId link =? id)%string) (children tree) = Some l ->
    get (marriageId l) (marriages tree) = Some m ->
    In p [spouse1Id m; spouse2Id m] -> truthy p = true ->
    assigned p (level - 1).

(** Every queue entry and every generation entry is such an assignment. *)
Definition bfs_sound (st : bfs_state) : Prop :=
  (forall id l, In (id, l) (queue st) -> assigned id l) /\
  (forall id l, get id (generations st) = Some l -> assigned id l).

Lemma visit_sound id level st :
  assigned id level -> bfs_sound st -> bfs_sound (visit id level st).
Proof.
  intros Ha [Hq Hg]. unfold visit. destruct (mem id (visited st)); [now split|].
  split; simpl.
  - intros id' l Hin. apply in_app_or in Hin. destruct Hin as [Hin|[E|[]]]; [auto|].
    now inversion E; subst.
  - intros id' l Hget. apply get_put_inv in Hget.
    destruct Hget as [[-> ->]|Hget]; auto.
Qed.

Lemma visit_truthy_sound id level st :
  (truthy id = true -> assigned id level) ->
  bfs_sound st -> bfs_sound (visit_truthy id level st).
Proof.
  intros Ha Hs. unfold visit_truthy. destruct (truthy id); [|exact Hs].
  apply visit_sound; auto.
Qed.

Lemma explore_marriage_sound id level st m :
  assigned id level ->
  In m (Object_values (marriages tree)) -> involves id m = true ->
  bfs_sound st -> bfs_sound (explore_marriage tree id level st m).
Proof.
  intros Ha Hm Hi Hs. unfold explore_marriage.
  apply fold_left_preserves with (P := bfs_sound).
  - intros s c Hc Hsound. apply visit_sound; [|exact Hsound].
    apply getChildrenOfMarriage_In in Hc. destruct Hc as [l [Hl [Hml <-]]].
    now apply assigned_child with (id := id) (m := m).
  - apply visit_truthy_sound; [|exact Hs]. intros Ht.
    now apply assigned_spouse.
Qed.

Lemma explore_parents_sound id level st :
  assigned id level -> bfs_sound st -> bfs_sound (explore_parents tree id level st).
Proof.
  intros Ha Hs. unfold explore_parents.
  destruct (find _ (children tree)) as [childLink|] eqn:Ef; [|exact Hs].
  destruct (get (marriageId childLink) (marriages tree)) as [m|] eqn:Eg; [|exact Hs].
  simpl.
  apply visit_truthy_sound;
    [intros Ht; apply assigned_parent with (id := id) (l := childLink) (m := m);
     simpl; auto|].
  apply visit_truthy_sound;
    [intros Ht; apply assigned_parent with (id := id) (l := childLink) (m := m);
     simpl; auto|].
  exact Hs.
Qed.

Lemma bfs_iteration_sound st : bfs_sound st -> bfs_sound (bfs_iteration tree st).
Proof.
  intros [Hq Hg]. unfold bfs_iteration.
  destruct (queue st) as [|[id level] rest] eqn:Eq; [now rewrite <- Eq in Hq|].
  assert (Ha : assigned id level) by (apply Hq; now left).
  apply explore_parents_sound; [exact Ha|].
  apply fold_left_preserves with (P := bfs_sound).
  - intros s m Hm Hs. apply filter_In in Hm. destruct Hm as [Hm Hi].
    now apply explore_marriage_sound.
  - split; simpl; [|exact Hg]. intros id' l Hin. apply Hq. now right.
Qed.

Lemma bfs_loop_sound fuel : forall st,
  bfs_sound st -> bfs_sound (bfs_loop tree fuel st).
Proof.
  induction fuel as [|fuel IH]; intros st Hs; simpl; [exact Hs|].
  destruct (queue st); [exact Hs|]. apply IH. now apply bfs_iteration_sound.
Qed.

Lemma bfs_init_sound : bfs_sound (bfs_init startId).
Proof.
  split; simpl.
  - intros id l [E|[]]. inversion E; subst. constructor.
  - intros id l Hget. apply get_put_inv in Hget.
    destruct Hget as [[-> ->]|Hget]; [constructor|discriminate].
Qed.

(** Every entry of the result is an assignment along the edges of [tree]. *)
Lemma computeGenerations_assigned id l :
  get id (computeGenerations tree startId) = Some l -> assigned id l.
Proof.
  unfold computeGenerations. destruct (truthy_at startId (persons tree)); [|discriminate].
  apply (bfs_loop_sound (bfs_fuel tree) bfs_init_sound).
Qed.

(** [generations] never gets an own [__proto__]. *)
Definition plain (st : bfs_state) : Prop := get proto_name (generations st) = None.

Lemma visit_plain id level st : plain st -> plain (visit id level st).
Proof.
  unfold plain, visit. intros Hp. destruct (mem id (visited st)); [exact Hp|].
  simpl. now apply get_put_proto.
Qed.

Lemma visit_truthy_plain id level st : plain st -> plain (visit_truthy id level st).
Proof.
  unfold visit_truthy. intros Hp. destruct (truthy id); [|exact Hp].
  now apply visit_plain.
Qed.

Lemma bfs_iteration_plain st : plain st -> plain (bfs_iteration tree st).
Proof.
  intros Hp. unfold bfs_iteration. destruct (queue st) as [|[id level] rest]; [exact Hp|].
  unfold explore_parents.
  assert (H1 : plain (fold_left (explore_marriage tree id level)
                        (filter (involves id) (Object_values (marriages tree)))
                        {| queue := rest; generations := generations st;
                           visited := visited st |})).
  { apply fold_left_preserves with (P := plain); [|exact Hp].
    intros s m _ Hs. unfold explore_marriage.
    apply fold_left_preserves with (P := plain).
    - intros s' c _ Hs'. now apply visit_plain.
    - now apply visit_truthy_plain. }
  destruct (find _ (children tree)) as [childLink|]; [|exact H1].
  destruct (get (marriageId childLink) (marriages tree)) as [m|]; [|exact H1].
  simpl. now apply visit_truthy_plain, visit_truthy_plain.
Qed.

Lemma bfs_loop_plain fuel : forall st, plain st -> plain (bfs_loop tree fuel st).
Proof.
  induction fuel as [|fuel IH]; intros st Hp; simpl; [exact Hp|].
  destruct (queue st); [exact Hp|]. apply IH. now apply bfs_iteration_plain.
Qed.

Lemma computeGenerations_plain :
  get proto_name (computeGenerations tree startId) = None.
Proof.
  unfold computeGenerations. destruct (truthy_at startId (persons tree)); [|reflexivity].
  apply bfs_loop_plain. unfold plain, bfs_init. simpl. now apply get_put_proto.
Qed.

Lemma involves_cases id m :
  involves id m = true ->
  (spouse1Id m = id /\ spouse_of id m = spouse2Id m) \/
  (spouse2Id m = id /\ spouse_of id m = spouse1Id m).
Proof.
  unfold involves, spouse_of.
  destruct (String.eqb_spec (spouse1Id m) id) as [E1|N1]; simpl; [auto|].
  intros E2. apply String.eqb_eq in E2. auto.
Qed.

(** *** Trees with a generation labelling *)

(** [g] labels the ids of [tree] with generations: spouses are level, and a
    child is one below the spouses of the marriage its link names. *)
Definition consistent (g : string -> Z) : Prop :=
  (forall k m, In (k, m) (marriages tree) -> g (spouse1Id m) = g (spouse2Id m)) /\
  (forall k m l, In (k, m) (marriages tree) -> In l (children tree) ->
     marriageId l = m_id m \/ marriageId l = k ->
     g (personId l) = (g (spouse1Id m) + 1)%Z).

Lemma assigned_consistent g id l :
  consistent g -> assigned id l -> l = (g id - g startId)%Z.
Proof.
  intros [Hsp Hch] Ha. induction Ha as
    [|id level m Ha IH Hm Hi Ht|id level m l Ha IH Hm Hi Hl Hml
     |id level l m p Ha IH Hf Hg Hp Ht].
  - lia.
  - destruct (marriage_value_entry tree m Hm) as [k Hk].
    specialize (Hsp k m Hk).
    destruct (involves_cases id m Hi) as [[<- ->]|[<- ->]]; lia.
  - destruct (marriage_value_entry tree m Hm) as [k Hk].
    specialize (Hsp k m Hk). specialize (Hch k m l Hk Hl (or_introl Hml)).
    destruct (involves_cases id m Hi) as [[<- _]|[<- _]]; lia.
  - apply find_some in Hf. destruct Hf as [Hl Hid]. apply String.eqb_eq in Hid.
    apply get_In in Hg.
    specialize (Hsp _ _ Hg). specialize (Hch _ _ l Hg Hl (or_intror eq_refl)).
    rewrite Hid in Hch. destruct Hp as [<-|[<-|[]]]; lia.
Qed.

(** *** Paths *)

(** [a] and [b] are spouses of one marriage, or [a] is a spouse of a
    marriage that a child link of [b] names (by its [id] or by its key). *)
Inductive related : string -> string -> Prop :=
| related_spouses m :
    In m (Object_values (marriages tree)) ->
    related (spouse1Id m) (spouse2Id m)
| related_child k m l s :
    In (k, m) (marriages tree) -> In l (children tree) ->
    marriageId l = m_id m \/ marriageId l = k ->
    In s [spouse1Id m; spouse2Id m] ->
    related s (personId l).

(** There is a path between [a] and [b]. *)
Inductive connected (a : string) : string -> Prop :=
| connected_refl : connected a a
| connected_step b c : connected a b -> related b c \/ related c b -> connected a c.

Lemma involves_In id m : involves id m = true -> In id [spouse1Id m; spouse2Id m].
Proof.
  intros Hi. destruct (involves_cases id m Hi) as [[<- _]|[<- _]]; simpl; auto.
Qed.

Lemma assigned_connected id l : assigned id l -> connected startId id.
Proof.
  intros Ha. induction Ha as
    [|id level m Ha IH Hm Hi Ht|id level m l Ha IH Hm Hi Hl Hml
     |id level l m p Ha IH Hf Hg Hp Ht].
  - constructor.
  - apply connected_step with (b := id); [exact IH|].
    destruct (involves_cases id m Hi) as [[<- ->]|[<- ->]];
      [left|right]; now constructor.
  - apply connected_step with (b := id); [exact IH|]. left.
    destruct (marriage_value_entry tree m Hm) as [k Hk].
    apply related_child with (k := k) (m := m); auto using involves_In.
  - apply connected_step with (b := id); [exact IH|]. right.
    apply find_some in Hf. destruct Hf as [Hl Hid]. apply String.eqb_eq in Hid.
    rewrite <- Hid. apply related_child with (k := marriageId l) (m := m); auto.
    now apply get_In.
Qed.
End Assigned.

(** ** Layout *)

(** [{ x: number; y: number }] *)
Record Point := { x : Z; y : Z }.

(** [gens[id]] for a key [id] of [gens], as the comparator of the sort reads
    it. *)
Definition gen_at (gens : JsRecord string Z) (id : string) : Z :=
  match get id gens with Some g => g | None => 0%Z end.

(** [Object.keys(gens).sort((a, b) => gens[a] - gens[b])] *)
Definition sortedIds (gens : JsRecord string Z) : list string :=
  sort_by (gen_at gens) (Object_keys gens).

Record grouping := {
  peopleByGen : JsRecord Z (list string);
  addedToLayout : list string
}.

(** [if (!peopleByGen[gen]) peopleByGen[gen] = []; peopleByGen[gen].push(id)] *)
Definition push_bucket (gen : Z) (id : string) (buckets : JsRecord Z (list string))
    : JsRecord Z (list string) :=
  match get gen buckets with
  | Some ids => set gen (ids ++ [id]) buckets
  | None => set gen [id] buckets
  end.

(** [gens[spouseId] === gen] *)
Definition gen_is (gens : JsRecord string Z) (id : string) (gen : Z) : bool :=
  match get id gens with Some g => (g =? gen)%Z | None => false end.

(** Body of [marriages.forEach] in the grouping pass. *)
Definition place_spouse (gens : JsRecord string Z) (id : string) (gen : Z)
    (st : grouping) (m : Marriage) : grouping :=
  let spouseId := spouse_of id m in
  if truthy spouseId && negb (mem spouseId (addedToLayout st)) && gen_is gens spouseId gen
  then {| peopleByGen := push_bucket gen spouseId (peopleByGen st);
          addedToLayout := spouseId :: addedToLayout st |}
  else st.

(** Body of [sortedIds.forEach].  [id] is a key of [gens], so [gens[id]] is
    a number; the [None] branch does not arise. *)
Definition place_person (tree : FamilyTree) (gens : JsRecord string Z)
    (st : grouping) (id : string) : grouping :=
  if mem id (addedToLayout st) then st
  else
    match get id gens with
    | Some gen =>
        let st := {| peopleByGen := push_bucket gen id (peopleByGen st);
                     addedToLayout := id :: addedToLayout st |} in
        fold_left (place_spouse gens id gen)
                  (filter (involves id) (Object_values (marriages tree))) st
    | None => st
    end.

Definition group_by_generation (tree : FamilyTree) (gens : JsRecord string Z)
    : grouping :=
  fold_left (place_person tree gens) (sortedIds gens)
            {| peopleByGen := []; addedToLayout := [] |}.

(** [(idx * HORIZONTAL_SPACING) - (rowWidth / 2)] in a row of [n] ids. *)
Definition row_x (n idx : nat) : Z :=
  let rowWidth := ((Z.of_nat n - 1) * HORIZONTAL_SPACING)%Z in
  (Z.of_nat idx * HORIZONTAL_SPACING - rowWidth / 2)%Z.

(** [ids.forEach((id, idx) => ...)]: the ids with their indices. *)
Definition indexed (ids : list string) : list (nat * string) :=
  combine (seq 0 (length ids)) ids.

(** Body of [Object.entries(peopleByGen).forEach]. *)
Definition place_row (personCoords : JsRecord string Point)
    (entry : Z * list string) : JsRecord string Point :=
  let (gen, ids) := entry in
  let rowY := (gen * VERTICAL_SPACING)%Z in
  fold_left (fun pc ii => put (snd ii) {| x := row_x (length ids) (fst ii); y := rowY |} pc)
            (indexed ids) personCoords.

(** What [personCoords[id]] reads: an own point, a value inherited from
    [Object.prototype] (truthy, and without [x] or [y]), or [undefined]. *)
Inductive Placement :=
| Placed (p : Point)
| Inherited
| Unplaced.

Definition placement (personCoords : JsRecord string Point) (id : string) : Placement :=
  match get id personCoords with
  | Some p => Placed p
  | None => if inherited id then Inherited else Unplaced
  end.

(** A marriage coordinate: [{ x, y }] with two numbers, or with [NaN] twice. *)
Inductive Coord :=
| Numbers (p : Point)
| NotNumbers.

(** [{ x: (p1.x + p2.x) / 2, y: (p1.y + p2.y) / 2 }] behind [if (p1 && p2)].
    An inherited value has neither [x] nor [y]: both read [undefined], and
    both sums are [NaN]. *)
Definition between (p1 p2 : Placement) : option Coord :=
  match p1, p2 with
  | Unplaced, _ | _, Unplaced => None
  | Placed p1, Placed p2 =>
      Some (Numbers {| x := (x p1 + x p2) / 2; y := (y p1 + y p2) / 2 |}%Z)
  | _, _ => Some NotNumbers
  end.

(** Body of [Object.values(tree.marriages).forEach]. *)
Definition place_marriage (personCoords : JsRecord string Point)
    (marriageCoords : JsRecord string Coord) (m : Marriage) : JsRecord string Coord :=
  match between (placement personCoords (spouse1Id m))
                (placement personCoords (spouse2Id m)) with
  | Some c => put (m_id m) c marriageCoords
  | None => marriageCoords
  end.

Record Layout := {
  personCoords : JsRecord string Point;
  marriageCoords : JsRecord string Coord;
  gens : JsRecord string Z
}.

Definition rows (tree : FamilyTree) (startId : string) : list (Z * list string) :=
  Object_entries
    (peopleByGen (group_by_generation tree (computeGenerations tree startId))).

(** The body of [layout] from [computeGenerations(tree, startId)] on. *)
Definition layout_at (tree : FamilyTree) (startId : string) : Layout :=
  let gens := computeGenerations tree startId in
  let personCoords := fold_left place_row (rows tree startId) [] in
  let marriageCoords :=
    fold_left (place_marriage personCoords) (Object_values (marriages tree)) [] in
  {| personCoords := personCoords; marriageCoords := marriageCoords; gens := gens |}.

(** [Object.keys(tree.persons)[0]].  Without persons it is [undefined], which
    [tree.persons[startId]] reads as the key ["undefined"]. *)
Definition rootId (tree : FamilyTree) : string :=
  hd "undefined"%string (Object_keys (persons tree)).

(** The layout rooted at the first person. *)
Definition layout (tree : FamilyTree) : Layout := layout_at tree (rootId tree).

(** The variant rooted at the focused person: [focusId || rootId]. *)
Definition layout_focus (tree : FamilyTree) (focusId : option string) : Layout :=
  layout_at tree
    (match focusId with
     | Some id => if truthy id then id else rootId tree
     | None => rootId tree
     end).

(** ** Properties of the grouping pass *)

Lemma mem_In id l : mem id l = true <-> In id l.
Proof.
  unfold mem. rewrite existsb_exists. split.
  - intros [y [Hin E]]. apply String.eqb_eq in E. now subst.
  - intros Hin. exists id. split; [exact Hin|apply String.eqb_refl].
Qed.

Lemma mem_not_In id l : mem id l = false <-> ~ In id l.
Proof.
  rewrite <- mem_In. destruct (mem id l); split; congruence.
Qed.

(** All ids placed in some bucket. *)
Definition flat (buckets : list (Z * list string)) : list string :=
  flat_map snd buckets.

Lemma Permutation_flat b b' : Permutation b b' -> Permutation (flat b) (flat b').
Proof.
  unfold flat. induction 1 as [|e l l' _ IH|e e' l|l l' l'' _ IH1 _ IH2]; simpl.
  - constructor.
  - now apply Permutation_app_head.
  - rewrite !app_assoc. apply Permutation_app_tail, Permutation_app_comm.
  - now transitivity (flat_map snd l').
Qed.

Lemma push_bucket_cons gen id k v r :
  push_bucket gen id ((k, v) :: r) =
  if (gen =? k)%Z then (k, v ++ [id]) :: r else (k, v) :: push_bucket gen id r.
Proof.
  unfold push_bucket. cbn [get set].
  change (key_eqb gen k) with (gen =? k)%Z.
  destruct (gen =? k)%Z eqn:E; cbn [set]; change (key_eqb gen k) with (gen =? k)%Z.
  - reflexivity.
  - rewrite ?E. destruct (get gen r); cbn [set];
      change (key_eqb gen k) with (gen =? k)%Z; rewrite ?E; reflexivity.
Qed.

Lemma push_bucket_flat gen id b :
  Permutation (flat (push_bucket gen id b)) (id :: flat b).
Proof.
  induction b as [|[k v] r IH].
  - reflexivity.
  - rewrite push_bucket_cons. destruct (gen =? k)%Z; unfold flat in *; simpl.
    + rewrite <- app_assoc. simpl. symmetry. apply Permutation_middle.
    + rewrite (Permutation_app_head v IH). symmetry. apply Permutation_middle.
Qed.

(** Every id of a bucket has the generation the bucket is keyed by. *)
Definition labelled (gens : JsRecord string Z) (b : list (Z * list string)) : Prop :=
  forall g ids id, In (g, ids) b -> In id ids -> get id gens = Some g.

Lemma push_bucket_labelled gens gen id b :
  get id gens = Some gen -> labelled gens b -> labelled gens (push_bucket gen id b).
Proof.
  intros Hid. induction b as [|[k v] r IH]; intros Hb g ids id' Hin Hin'.
  - destruct Hin as [E|[]]. inversion E; subst.
    destruct Hin' as [<-|[]]. exact Hid.
  - rewrite push_bucket_cons in Hin. destruct (Z.eqb_spec gen k) as [->|Hne].
    + destruct Hin as [E|Hin].
      * inversion E; subst. apply in_app_or in Hin'.
        destruct Hin' as [Hin'|[<-|[]]]; [|exact Hid].
        apply (Hb g v); [now left|exact Hin'].
      * apply (Hb g ids); [now right|exact Hin'].
    + destruct Hin as [E|Hin].
      * inversion E; subst. apply (Hb g ids); [now left|exact Hin'].
      * apply (IH (fun g0 ids0 i H1 H2 => Hb g0 ids0 i (or_intror H1) H2) g ids);
          assumption.
Qed.

Section Grouping.
Variable tree : FamilyTree.
Variable gens : JsRecord string Z.

(** No id is placed twice, the placed ids are those of [addedToLayout], and
    each sits in the bucket of its generation. *)
Definition grouped (st : grouping) : Prop :=
  NoDup (flat (peopleByGen st)) /\
  (forall id, In id (flat (peopleByGen st)) <-> In id (addedToLayout st)) /\
  labelled gens (peopleByGen st).

Lemma grouped_push gen id st :
  grouped st -> ~ In id (addedToLayout st) -> get id gens = Some gen ->
  grouped {| peopleByGen := push_bucket gen id (peopleByGen st);
             addedToLayout := id :: addedToLayout st |}.
Proof.
  intros [Hnd [Hiff Hlab]] Hnew Hgen. pose proof (push_bucket_flat gen id (peopleByGen st)) as Hp.
  split; [|split]; simpl.
  - apply (Permutation_NoDup (Permutation_sym Hp)). constructor; [|exact Hnd].
    now rewrite Hiff.
  - intros id'. split.
    + intros Hin. apply (Permutation_in _ Hp) in Hin. destruct Hin as [E|Hin]; [auto|].
      right. now apply Hiff.
    + intros Hin. apply (Permutation_in _ (Permutation_sym Hp)).
      destruct Hin as [E|Hin]; [now left|]. right. now apply Hiff.
  - now apply push_bucket_labelled.
Qed.

Lemma place_spouse_grouped id gen st m :
  grouped st -> grouped (place_spouse gens id gen st m).
Proof.
  intros Hg. unfold place_spouse.
  destruct (truthy (spouse_of id m) && negb (mem (spouse_of id m) (addedToLayout st))
            && gen_is gens (spouse_of id m) gen) eqn:E; [|exact Hg].
  apply andb_true_iff in E. destruct E as [E Hgen].
  apply andb_true_iff in E. destruct E as [_ Hmem].
  apply negb_true_iff, mem_not_In in Hmem.
  apply grouped_push; [exact Hg|exact Hmem|].
  unfold gen_is in Hgen. destruct (get (spouse_of id m) gens) as [g|]; [|discriminate].
  apply Z.eqb_eq in Hgen. now subst.
Qed.

Lemma place_person_grouped st id : grouped st -> grouped (place_person tree gens st id).
Proof.
  intros Hg. unfold place_person.
  destruct (mem id (addedToLayout st)) eqn:Em; [exact Hg|].
  destruct (get id gens) as [gen|] eqn:Eg; [|exact Hg].
  apply fold_left_preserves with (P := grouped).
  - intros s m _ Hs. now apply place_spouse_grouped.
  - apply grouped_push; [exact Hg| |exact Eg]. now apply mem_not_In.
Qed.

Lemma place_spouse_keeps id gen st m id' :
  In id' (addedToLayout st) -> In id' (addedToLayout (place_spouse gens id gen st m)).
Proof.
  intros Hin. unfold place_spouse.
  destruct (_ && _ && _); [now right|exact Hin].
Qed.

Lemma place_person_keeps st id id' :
  In id' (addedToLayout st) -> In id' (addedToLayout (place_person tree gens st id)).
Proof.
  intros Hin. unfold place_person.
  destruct (mem id (addedToLayout st)); [exact Hin|].
  destruct (get id gens) as [gen|]; [|exact Hin].
  apply fold_left_preserves with (P := fun s => In id' (addedToLayout s)).
  - intros s m _ Hs. now apply place_spouse_keeps.
  - now right.
Qed.

Lemma place_person_adds st id :
  get id gens <> None -> In id (addedToLayout (place_person tree gens st id)).
Proof.
  intros Hk. unfold place_person.
  destruct (mem id (addedToLayout st)) eqn:Em; [now apply mem_In|].
  destruct (get id gens) as [gen|]; [|congruence].
  apply fold_left_preserves with (P := fun s => In id (addedToLayout s)).
  - intros s m _ Hs. now apply place_spouse_keeps.
  - now left.
Qed.

Lemma fold_place_person_covers l : forall st id,
  (forall id', In id' l -> get id' gens <> None) ->
  In id (addedToLayout st) \/ In id l ->
  In id (addedToLayout (fold_left (place_person tree gens) l st)).
Proof.
  induction l as [|a r IH]; intros st id Hk Hin; simpl.
  - destruct Hin as [Hin|[]]. exact Hin.
  - apply IH; [intros id' Hin'; apply Hk; now right|].
    destruct Hin as [Hin|[<-|Hin]].
    + left. now apply place_person_keeps.
    + left. apply place_person_adds. apply Hk. now left.
    + now right.
Qed.

Lemma sortedIds_In id : In id (sortedIds gens) <-> In id (keys gens).
Proof.
  unfold sortedIds. rewrite <- Object_keys_In.
  split; apply Permutation_in; [|symmetry]; apply sort_by_perm.
Qed.

Lemma group_by_generation_grouped : grouped (group_by_generation tree gens).
Proof.
  unfold group_by_generation. apply fold_left_preserves with (P := grouped).
  - intros s id _ Hs. now apply place_person_grouped.
  - split; [constructor|split]; simpl; [tauto|]. intros g ids id [].
Qed.

(** The buckets hold exactly the ids that have a generation. *)
Lemma group_by_generation_flat id :
  In id (flat (peopleByGen (group_by_generation tree gens))) <-> In id (keys gens).
Proof.
  destruct group_by_generation_grouped as [_ [Hiff Hlab]]. split.
  - intros Hin. unfold flat in Hin. apply in_flat_map in Hin.
    destruct Hin as [[g ids] [He Hin]]. apply get_some_keys.
    rewrite (Hlab g ids id He Hin). discriminate.
  - intros Hin. apply Hiff. unfold group_by_generation.
    apply fold_place_person_covers.
    + intros id' Hin'. apply get_some_keys. now apply sortedIds_In.
    + right. now apply sortedIds_In.
Qed.
End Grouping.

(** ** Properties of the coordinate passes *)

(** [personCoords[id] = point] *)
Definition assign (pc : JsRecord string Point) (a : string * Point)
    : JsRecord string Point :=
  set (fst a) (snd a) pc.

(** The assignments one row makes, in order. *)
Definition row_points (entry : Z * list string) : list (string * Point) :=
  map (fun ii => (snd ii, {| x := row_x (length (snd entry)) (fst ii);
                             y := (fst entry * VERTICAL_SPACING)%Z |}))
      (indexed (snd entry)).

Lemma fold_left_over_map {A B C} (f : A -> B -> A) (g : C -> B) l : forall a,
  fold_left f (map g l) a = fold_left (fun a c => f a (g c)) l a.
Proof.
  induction l as [|c l IH]; intros a; simpl; [reflexivity|]. apply IH.
Qed.

Lemma fold_left_ext_in {A B} (f g : A -> B -> A) l :
  (forall a b, In b l -> f a b = g a b) ->
  forall a, fold_left f l a = fold_left g l a.
Proof.
  induction l as [|b l IH]; intros Hfg a; simpl; [reflexivity|].
  rewrite Hfg by now left. apply IH. intros a' b' Hin. apply Hfg. now right.
Qed.

Lemma In_indexed_snd (ids : list string) ii : In ii (indexed ids) -> In (snd ii) ids.
Proof.
  unfold indexed. destruct ii as [i id]. intros Hin.
  apply in_combine_r in Hin. exact Hin.
Qed.

(** No row holds [__proto__] where the assignments of [place_row] are
    plain property definitions. *)
Lemma place_row_assign pc entry :
  ~ In proto_name (snd entry) ->
  place_row pc entry = fold_left assign (row_points entry) pc.
Proof.
  destruct entry as [gen ids]. simpl. intros Hn. unfold place_row, row_points.
  rewrite fold_left_over_map. apply fold_left_ext_in.
  intros a ii Hin. unfold assign. simpl. apply put_other.
  intros E. apply Hn. rewrite <- E. now apply In_indexed_snd.
Qed.

Lemma fold_place_row rs : forall pc,
  ~ In proto_name (flat rs) ->
  fold_left place_row rs pc = fold_left assign (flat_map row_points rs) pc.
Proof.
  unfold flat.
  induction rs as [|e rs IH]; intros pc Hn; simpl in *; [reflexivity|].
  rewrite fold_left_app, IH, place_row_assign; [reflexivity| |];
    intros Hin; apply Hn, in_or_app; auto.
Qed.

Lemma map_snd_indexed_from (ids : list string) : forall a,
  map snd (combine (seq a (length ids)) ids) = ids.
Proof.
  induction ids as [|i ids IH]; intros a; simpl; [reflexivity|]. now rewrite IH.
Qed.

Lemma row_points_ids entry : map fst (row_points entry) = snd entry.
Proof.
  unfold row_points, indexed. rewrite map_map. simpl.
  apply map_snd_indexed_from.
Qed.

Lemma flat_map_row_points_ids rs : map fst (flat_map row_points rs) = flat rs.
Proof.
  unfold flat. induction rs as [|e rs IH]; simpl; [reflexivity|].
  now rewrite map_app, row_points_ids, IH.
Qed.

Lemma nth_error_indexed_from (ids : list string) : forall a idx id,
  nth_error ids idx = Some id ->
  In (a + idx, id) (combine (seq a (length ids)) ids).
Proof.
  induction ids as [|i ids IH]; intros a idx id Hn.
  - now destruct idx.
  - destruct idx as [|idx]; simpl in *.
    + left. inversion Hn. f_equal. lia.
    + right. replace (a + S idx) with (S a + idx) by lia. now apply IH.
Qed.

Lemma In_indexed_from (ids : list string) : forall a i id,
  In (i, id) (combine (seq a (length ids)) ids) ->
  a <= i /\ nth_error ids (i - a) = Some id.
Proof.
  induction ids as [|j ids IH]; intros a i id Hin; simpl in *; [tauto|].
  destruct Hin as [E|Hin].
  - inversion E; subst. rewrite Nat.sub_diag. auto.
  - apply IH in Hin. destruct Hin as [Hle Hn]. split; [lia|].
    replace (i - a) with (S (i - S a)) by lia. exact Hn.
Qed.

Lemma get_fold_assign_other k l : forall o,
  ~ In k (map fst l) -> get k (fold_left assign l o) = get k o.
Proof.
  induction l as [|[k' v'] l IH]; intros o Hn; simpl; [reflexivity|].
  simpl in Hn. rewrite IH by tauto. unfold assign. simpl.
  apply get_set_neq. intros E. apply Hn. left. now subst.
Qed.

Lemma get_fold_assign k v l : forall o,
  NoDup (map fst l) -> In (k, v) l -> get k (fold_left assign l o) = Some v.
Proof.
  induction l as [|[k' v'] l IH]; intros o Hnd Hin; simpl in *; [tauto|].
  inversion Hnd as [|? ? Hnot Hnd']; subst. destruct Hin as [E|Hin].
  - inversion E; subst. rewrite get_fold_assign_other by exact Hnot.
    apply get_set_eq.
  - now apply IH.
Qed.

Lemma keys_fold_assign k l : forall o,
  In k (keys (fold_left assign l o)) <-> In k (map fst l) \/ In k (keys o).
Proof.
  induction l as [|[k' v'] l IH]; intros o; simpl; [tauto|].
  rewrite IH. unfold assign. simpl. rewrite In_keys_set. intuition.
Qed.

(** The two divisions by 2 of the layout are exact. *)
Lemma rowWidth_even (n : nat) :
  (2 * (((Z.of_nat n - 1) * HORIZONTAL_SPACING) / 2)
   = (Z.of_nat n - 1) * HORIZONTAL_SPACING)%Z.
Proof.
  unfold HORIZONTAL_SPACING.
  replace ((Z.of_nat n - 1) * 300)%Z with (((Z.of_nat n - 1) * 150) * 2)%Z by lia.
  rewrite Z.div_mul by lia. lia.
Qed.

Lemma row_x_even n idx : exists h, row_x n idx = (2 * h)%Z.
Proof.
  unfold row_x. cbv zeta. pose proof (rowWidth_even n) as He.
  unfold HORIZONTAL_SPACING in *.
  replace ((Z.of_nat n - 1) * 300)%Z with (((Z.of_nat n - 1) * 150) * 2)%Z by lia.
  rewrite Z.div_mul by lia.
  exists (Z.of_nat idx * 150 - (Z.of_nat n - 1) * 75)%Z. lia.
Qed.

Lemma row_x_mirror n idx :
  idx < n -> (row_x n idx + row_x n (n - 1 - idx) = 0)%Z.
Proof.
  intros Hlt. unfold row_x. cbv zeta. pose proof (rowWidth_even n) as He.
  replace (Z.of_nat (n - 1 - idx)) with (Z.of_nat n - 1 - Z.of_nat idx)%Z by lia.
  lia.
Qed.

Lemma row_x_step n idx : (row_x n (S idx) - row_x n idx = HORIZONTAL_SPACING)%Z.
Proof. unfold row_x. cbv zeta. lia. Qed.

Section Coordinates.
Variable tree : FamilyTree.
Variable startId : string.

Lemma rows_flat id :
  In id (flat (rows tree startId)) <-> In id (keys (computeGenerations tree startId)).
Proof.
  rewrite <- (group_by_generation_flat tree). unfold rows.
  split; apply Permutation_in; [|symmetry]; apply Permutation_flat, Object_entries_perm.
Qed.

Lemma rows_NoDup : NoDup (flat (rows tree startId)).
Proof.
  unfold rows. eapply Permutation_NoDup;
    [symmetry; apply Permutation_flat, Object_entries_perm|].
  apply (group_by_generation_grouped tree (computeGenerations tree startId)).
Qed.

Lemma rows_labelled gen ids id :
  In (gen, ids) (rows tree startId) -> In id ids ->
  get id (computeGenerations tree startId) = Some gen.
Proof.
  intros Hin Hid. unfold rows in Hin. apply (proj1 (Object_entries_In _ _)) in Hin.
  destruct (group_by_generation_grouped tree (computeGenerations tree startId))
    as [_ [_ Hlab]].
  exact (Hlab gen ids id Hin Hid).
Qed.

Lemma personCoords_assign :
  personCoords (layout_at tree startId)
  = fold_left assign (flat_map row_points (rows tree startId)) [].
Proof.
  unfold layout_at. simpl. apply fold_place_row.
  rewrite rows_flat. intros Hin. apply get_some_keys in Hin.
  now rewrite computeGenerations_plain in Hin.
Qed.

(** The coordinate of the id at position [idx] of a row. *)
Lemma personCoords_row gen ids idx id :
  In (gen, ids) (rows tree startId) -> nth_error ids idx = Some id ->
  get id (personCoords (layout_at tree startId))
  = Some {| x := row_x (length ids) idx; y := (gen * VERTICAL_SPACING)%Z |}.
Proof.
  intros Hrow Hn. rewrite personCoords_assign. apply get_fold_assign.
  - rewrite flat_map_row_points_ids. apply rows_NoDup.
  - apply in_flat_map. exists (gen, ids). split; [exact Hrow|].
    unfold row_points. apply in_map_iff. exists (idx, id). split; [reflexivity|].
    apply (nth_error_indexed_from ids 0 idx Hn).
Qed.

Lemma personCoords_keys id :
  In id (keys (personCoords (layout_at tree startId)))
  <-> In id (keys (computeGenerations tree startId)).
Proof.
  rewrite personCoords_assign, keys_fold_assign, flat_map_row_points_ids, rows_flat.
  simpl. tauto.
Qed.

(** Every person coordinate comes from a row. *)
Lemma personCoords_shape id p :
  get id (personCoords (layout_at tree startId)) = Some p ->
  exists gen ids idx,
    In (gen, ids) (rows tree startId) /\ nth_error ids idx = Some id /\
    p = {| x := row_x (length ids) idx; y := (gen * VERTICAL_SPACING)%Z |}.
Proof.
  intros Hg.
  assert (Hk : In id (flat (rows tree startId))).
  { apply rows_flat, personCoords_keys, get_some_keys. congruence. }
  unfold flat in Hk. apply in_flat_map in Hk. destruct Hk as [[gen ids] [Hrow Hid]].
  simpl in Hid. apply In_nth_error in Hid. destruct Hid as [idx Hn].
  exists gen, ids, idx. split; [exact Hrow|split; [exact Hn|]].
  rewrite (personCoords_row gen ids idx Hrow Hn) in Hg. now inversion Hg.
Qed.

Lemma layout_marriage_midpoint_exact id1 id2 p1 p2 :
  get id1 (personCoords (layout_at tree startId)) = Some p1 ->
  get id2 (personCoords (layout_at tree startId)) = Some p2 ->
  (2 * ((x p1 + x p2) / 2) = x p1 + x p2 /\
   2 * ((y p1 + y p2) / 2) = y p1 + y p2)%Z.
Proof.
  intros H1 H2.
  destruct (personCoords_shape _ H1) as [g1 [ids1 [i1 [_ [_ ->]]]]].
  destruct (personCoords_shape _ H2) as [g2 [ids2 [i2 [_ [_ ->]]]]].
  cbn [x y]. destruct (row_x_even (length ids1) i1) as [h1 ->].
  destruct (row_x_even (length ids2) i2) as [h2 ->].
  unfold VERTICAL_SPACING. split.
  - replace (2 * h1 + 2 * h2)%Z with ((h1 + h2) * 2)%Z by lia.
    rewrite Z.div_mul by lia. lia.
  - replace (g1 * 260 + g2 * 260)%Z with ((g1 * 130 + g2 * 130) * 2)%Z by lia.
    rewrite Z.div_mul by lia. lia.
Qed.
End Coordinates.

(** *** Marriage coordinates *)

(** [p1 && p2] *)
Definition both_placed (pc : JsRecord string Point) (m : Marriage) : bool :=
  truthy_at (spouse1Id m) pc && truthy_at (spouse2Id m) pc.

Lemma between_both_placed pc m :
  between (placement pc (spouse1Id m)) (placement pc (spouse2Id m)) <> None
  <-> both_placed pc m = true.
Proof.
  unfold both_placed, truthy_at, placement.
  destruct (get (spouse1Id m) pc), (get (spouse2Id m) pc);
    destruct (inherited (spouse1Id m)), (inherited (spouse2Id m)); simpl;
    split; congruence.
Qed.

Lemma place_marriage_other pc mc m k :
  m_id m <> k -> get k (place_marriage pc mc m) = get k mc.
Proof.
  intros Hne. unfold place_marriage.
  destruct (between _ _); [|reflexivity].
  apply get_put_neq. congruence.
Qed.

Lemma fold_place_marriage_other pc k ms : forall mc,
  ~ In k (map m_id ms) -> get k (fold_left (place_marriage pc) ms mc) = get k mc.
Proof.
  induction ms as [|m ms IH]; intros mc Hn; simpl; [reflexivity|].
  simpl in Hn. rewrite IH by tauto. apply place_marriage_other. tauto.
Qed.

(** With unique marriage ids, the entry of a marriage is the one written for
    that marriage, if any. *)
Lemma fold_place_marriage_get pc m ms : forall mc,
  NoDup (map m_id ms) -> In m ms ->
  get (m_id m) (fold_left (place_marriage pc) ms mc)
  = get (m_id m) (place_marriage pc mc m).
Proof.
  induction ms as [|a ms IH]; intros mc Hnd Hin; simpl in *; [tauto|].
  inversion Hnd as [|? ? Hnot Hnd']; subst. destruct Hin as [->|Hin].
  - now apply fold_place_marriage_other.
  - rewrite IH by assumption.
    assert (Hne : m_id a <> m_id m).
    { intros E. apply Hnot. rewrite E. now apply in_map. }
    unfold place_marriage at 1 3.
    destruct (between _ _) as [c|]; [|now apply place_marriage_other].
    destruct (String.eqb_spec (m_id m) proto_name) as [Hp|Hp].
    + rewrite Hp, !put_proto. apply place_marriage_other. congruence.
    + now rewrite !get_put_eq.
Qed.

(** Marriage identifiers are unique, as the data model requires. *)
Definition marriage_ids_unique (tree : FamilyTree) : Prop :=
  NoDup (map m_id (Object_values (marriages tree))).

(** Every marriage is stored under its own id and no key occurs twice: what
    [addMarriage] builds. *)
Definition keyed_by_id (ms : JsRecord string Marriage) : Prop :=
  NoDup (keys ms) /\ forall k m, In (k, m) ms -> k = m_id m.

Lemma In_set_inv {V} (k : string) (v : V) e (o : JsRecord string V) :
  In e (set k v o) -> (fst e = k /\ snd e = v) \/ In e o.
Proof.
  induction o as [|[k' v'] r IH]; simpl.
  - intros [<-|[]]. now left.
  - destruct (String.eqb_spec k k') as [->|Hne]; simpl.
    + intros [<-|Hin]; [now left|right; now right].
    + intros [<-|Hin]; [right; now left|]. destruct (IH Hin); [now left|right; now right].
Qed.

Lemma NoDup_keys_set {V} (k : string) (v : V) (o : JsRecord string V) :
  NoDup (keys o) -> NoDup (keys (set k v o)).
Proof.
  intros Hnd. rewrite keys_set. destruct (get k o) eqn:E; [exact Hnd|].
  apply (proj1 (get_none_keys k o)) in E.
  apply (Permutation_NoDup (l := k :: keys o));
    [apply Permutation_cons_append|now constructor].
Qed.

Lemma addMarriage_keyed_by_id tree m :
  keyed_by_id (marriages tree) -> keyed_by_id (marriages (addMarriage tree m)).
Proof.
  intros [Hnd Hkey]. split; simpl.
  - now apply NoDup_keys_set.
  - intros k m' Hin. apply In_set_inv in Hin. simpl in Hin.
    destruct Hin as [[-> ->]|Hin]; [reflexivity|now apply Hkey].
Qed.

Lemma keyed_by_id_unique tree :
  keyed_by_id (marriages tree) -> marriage_ids_unique tree.
Proof.
  intros [Hnd Hkey]. unfold marriage_ids_unique.
  apply (Permutation_NoDup (l := map m_id (map snd (marriages tree)))).
  - apply Permutation_map. symmetry.
    apply Permutation_map, Object_entries_perm.
  - replace (map m_id (map snd (marriages tree))) with (keys (marriages tree));
      [exact Hnd|].
    unfold keys. rewrite map_map. apply map_ext_in.
    intros [k m] Hin. simpl. now apply Hkey.
Qed.

(** * The claims *)

Unset Implicit Arguments.
Open Scope string_scope.

(** ** Mutation functions *)

(** C1 (cascade completeness) fails on the code in part (c).  The filter of
    the child links tests [newMarriages[link.marriageId]] for truth, and a
    [marriageId] such as [toString] reads a function of [Object.prototype]:
    in [tree_stray_link], where X is a person, deleting X keeps the link
    of A although the result has no marriage with that key. *)
Theorem deletePerson_keeps_inherited_link :
  get "X" (persons tree_stray_link) <> None /\
  marriages (deletePerson tree_stray_link "X") = [] /\
  children (deletePerson tree_stray_link "X") = [mkLink "toString" "A"] /\
  exists link,
    In link (children (deletePerson tree_stray_link "X")) /\
    get (marriageId link) (marriages (deletePerson tree_stray_link "X")) = None.
Proof.
  split; [discriminate|]. split; [reflexivity|]. split; [reflexivity|].
  exists (mkLink "toString" "A"). split; [now left|reflexivity].
Qed.

(** C4 (idempotent child insertion): a second [addChild] with the same
    marriage and person changes nothing, and when the tree had no such child
    link, it has exactly one after the two calls. *)
Theorem addChild_idempotent (tree : FamilyTree) (mId pId : string) :
  addChild (addChild tree mId pId) mId pId = addChild tree mId pId /\
  (count_links mId pId tree = 0 ->
   count_links mId pId (addChild (addChild tree mId pId) mId pId) = 1).
Proof.
  assert (Hidem : addChild (addChild tree mId pId) mId pId = addChild tree mId pId)
    by apply addChild_present, addChild_contains.
  split; [exact Hidem|]. rewrite Hidem. unfold count_links, addChild. intros H0.
  apply length_zero_iff_nil in H0.
  rewrite (proj2 (existsb_filter_nil _ _) H0). simpl.
  rewrite filter_app, H0. simpl. now rewrite is_link_refl.
Qed.

Lemma addChild_idempotent_witness :
  count_links "m1" "E" tree_RSCDE = 0 /\
  count_links "m1" "E" (addChild (addChild tree_RSCDE "m1" "E") "m1" "E") = 1.
Proof.
  split; [reflexivity|].
  apply (addChild_idempotent tree_RSCDE "m1" "E"). reflexivity.
Defined.

(** C10 (idempotent deletion): deleting the same person a second time
    changes nothing. *)
Theorem deletePerson_idempotent (tree : FamilyTree) (pId : string) :
  deletePerson (deletePerson tree pId) pId = deletePerson tree pId.
Proof.
  unfold deletePerson. simpl. rewrite prune_marriages_idem. f_equal.
  - apply filter_idem.
  - apply filter_idem.
Qed.

(** ** Generations *)

(** C2, as the code has it: in a tree that admits a generation labelling [g]
    (spouses level, children one below the spouses of their marriage), every
    id of the result gets its label relative to the start, so that the two
    spouses of a marriage get equal generation numbers whenever both have
    one. *)
Theorem computeGenerations_spouses_level (tree : FamilyTree) (startId : string)
    (g : string -> Z) (m : Marriage) (a b : Z) :
  consistent tree g ->
  In m (Object_values (marriages tree)) ->
  get (spouse1Id m) (computeGenerations tree startId) = Some a ->
  get (spouse2Id m) (computeGenerations tree startId) = Some b ->
  a = b /\ a = (g (spouse1Id m) - g startId)%Z.
Proof.
  intros Hc Hm Ha Hb.
  apply computeGenerations_assigned in Ha, Hb.
  apply (assigned_consistent Hc) in Ha, Hb.
  destruct (marriage_value_entry tree m Hm) as [k Hk].
  destruct Hc as [Hsp _]. specialize (Hsp k m Hk). lia.
Qed.

(** The generations of R, S, C, D and E. *)
Definition g_RSCDE (id : string) : Z :=
  if (id =? "C") || (id =? "D") then 1 else if id =? "E" then 2 else 0.

Lemma consistent_RSCDE : consistent tree_RSCDE g_RSCDE.
Proof.
  split.
  - intros k m [E|[E|[]]]; inversion E; reflexivity.
  - intros k m l Hm Hl Hor.
    destruct Hm as [E|[E|[]]]; inversion E; subst k m;
      destruct Hl as [El|[El|[]]]; subst l; simpl in Hor;
      destruct Hor as [Hor|Hor]; try discriminate Hor; reflexivity.
Defined.

Lemma computeGenerations_spouses_level_witness :
  consistent tree_RSCDE g_RSCDE /\
  In (mkMarriage "m2" "C" "D") (Object_values (marriages tree_RSCDE)) /\
  get "C" (computeGenerations tree_RSCDE "R") = Some 1%Z /\
  get "D" (computeGenerations tree_RSCDE "R") = Some 1%Z /\
  (1 = 1 /\ 1 = g_RSCDE "C" - g_RSCDE "R")%Z.
Proof.
  split; [exact consistent_RSCDE|]. split; [right; left; reflexivity|].
  split; [reflexivity|]. split; [reflexivity|].
  apply (computeGenerations_spouses_level tree_RSCDE "R" g_RSCDE
           (mkMarriage "m2" "C" "D") 1 1 consistent_RSCDE).
  - right. left. reflexivity.
  - reflexivity.
  - reflexivity.
Defined.

(** C2 as stated fails: in [tree_cross], traversed from A, the spouses C and
    B of marriage m2 both get a generation, 1 and 0. *)
Lemma computeGenerations_spouses_differ :
  exists m a b,
    In m (Object_values (marriages tree_cross)) /\
    get (spouse1Id m) (computeGenerations tree_cross "A") = Some a /\
    get (spouse2Id m) (computeGenerations tree_cross "A") = Some b /\
    a <> b.
Proof.
  exists (mkMarriage "m2" "C" "B"), 1%Z, 0%Z.
  split; [right; left; reflexivity|]. split; [reflexivity|].
  split; [reflexivity|discriminate].
Qed.

(** C3: on the five-person tree, whichever slot each spouse occupies and in
    whatever order marriages and child links were created, the traversal
    from R yields R:0, S:0, C:1, D:1, E:2 and nothing else. *)
Theorem computeGenerations_RSCDE (swapRS swapCD reversed : bool) :
  computeGenerations (five_person_tree swapRS swapCD reversed) "R"
    = [("R", 0%Z); ("S", 0%Z); ("C", 1%Z); ("D", 1%Z); ("E", 2%Z)].
Proof. destruct swapRS, swapCD, reversed; vm_compute; reflexivity. Qed.

(** C5, as the code has it: the loop of [computeGenerations] always stops
    with an empty queue, after at most one iteration per id that marriages
    and child links mention plus one for the start; when every such id is a
    key of the person mapping, and the start is such a key or else no name
    inherited from [Object.prototype], after at most as many iterations as
    there are persons.  The iteration budget of the model is never the
    reason to stop: a larger one gives the same final state. *)
Theorem computeGenerations_terminates (tree : FamilyTree) (startId : string) :
  queue (bfs_loop tree (bfs_fuel tree) (bfs_init startId)) = [] /\
  iterations tree startId
    <= 1 + 2 * length (marriages tree) + length (children tree) /\
  (references_resolve tree ->
   has startId (persons tree) = true \/ inherited startId = false ->
   iterations tree startId <= length (persons tree)) /\
  (forall fuel, bfs_fuel tree <= fuel ->
     bfs_loop tree fuel (bfs_init startId)
     = bfs_loop tree (bfs_fuel tree) (bfs_init startId)).
Proof.
  split; [apply bfs_fuel_enough|]. unfold iterations. split; [|split].
  - destruct (truthy_at startId (persons tree)); [|lia].
    etransitivity; [apply (bfs_iterations_bound (covers_mentioned tree))|].
    apply bfs_measure_init_mentioned.
  - intros Hres Hstart. rewrite truthy_at_has.
    destruct (has startId (persons tree)) eqn:Hhas; cbn [orb].
    + etransitivity; [apply (bfs_iterations_bound Hres)|].
      now apply bfs_measure_init_persons.
    + destruct Hstart as [Hstart| ->]; [discriminate Hstart|lia].
  - intros fuel Hle. apply bfs_loop_more_fuel; [apply bfs_fuel_enough|exact Hle].
Qed.

Lemma references_resolve_RSCDE : references_resolve tree_RSCDE.
Proof.
  split.
  - intros k m [E|[E|[]]]; inversion E; simpl; split; intros _; tauto.
  - intros l [E|[E|[]]]; subst l; simpl; tauto.
Defined.

Lemma computeGenerations_terminates_witness :
  references_resolve tree_RSCDE /\
  (has "R" (persons tree_RSCDE) = true \/ inherited "R" = false) /\
  iterations tree_RSCDE "R" <= length (persons tree_RSCDE).
Proof.
  split; [exact references_resolve_RSCDE|]. split; [left; reflexivity|].
  apply (computeGenerations_terminates tree_RSCDE "R");
    [exact references_resolve_RSCDE|left; reflexivity].
Defined.

(** C5 as stated fails: [tree_dangling] has one person, and the traversal
    from A runs two iterations (A, then the spouse id B). *)
Lemma iterations_exceed_persons :
  has "A" (persons tree_dangling) = true /\
  length (persons tree_dangling) = 1 /\
  iterations tree_dangling "A" = 2 /\
  length (persons tree_dangling) < iterations tree_dangling "A".
Proof.
  split; [reflexivity|]. split; [reflexivity|]. split; [reflexivity|].
  apply Nat.ltb_lt. reflexivity.
Qed.

(** C6 fails on the code.  The guard tests [tree.persons[startId]] for
    truth, and a start id such as [constructor] reads a function of
    [Object.prototype]: on the tree without persons, marriages and child
    links the traversal runs and returns one entry. *)
Theorem computeGenerations_inherited_root :
  get "constructor" (persons {| persons := []; marriages := []; children := [] |}) = None /\
  computeGenerations {| persons := []; marriages := []; children := [] |} "constructor"
    = [("constructor", 0%Z)].
Proof. split; reflexivity. Qed.

(** ** Layout *)

(** C7 fails on the code.  The guard [p1 && p2] tests the two reads of
    [personCoords] for truth, and spouse ids such as [constructor] and
    [toString] read functions of [Object.prototype]: in
    [tree_inherited_spouses] nobody has a person coordinate, and marriage m9
    gets an entry, whose two numbers are [NaN]. *)
Theorem layout_marriage_of_inherited_spouses :
  marriage_ids_unique tree_inherited_spouses /\
  In (mkMarriage "m9" "constructor" "toString")
     (Object_values (marriages tree_inherited_spouses)) /\
  personCoords (layout tree_inherited_spouses) = [] /\
  marriageCoords (layout tree_inherited_spouses) = [("m9", NotNumbers)].
Proof.
  split; [|split; [now left|split; reflexivity]].
  unfold marriage_ids_unique. simpl. constructor; [intros []|constructor].
Qed.

Lemma marriage_ids_unique_RSCDE : marriage_ids_unique tree_RSCDE.
Proof.
  apply keyed_by_id_unique. split.
  - simpl. constructor; [intros [E|[]]; discriminate E|].
    constructor; [intros []|constructor].
  - intros k m [E|[E|[]]]; inversion E; reflexivity.
Defined.

(** C8: in a row of [N] ids for generation [gen], the id at position [idx]
    is placed at [x = idx * S - (N - 1) * S / 2] and [y = gen * V], and [gen]
    is its generation; hence the positions [idx] and [N - 1 - idx] mirror
    each other about 0 and neighbours are [S] apart. *)
Theorem layout_row_positions (tree : FamilyTree) (startId : string)
    (gen : Z) (ids : list string) :
  In (gen, ids) (rows tree startId) ->
  (forall idx id, nth_error ids idx = Some id ->
     get id (personCoords (layout_at tree startId))
       = Some {| x := Z.of_nat idx * HORIZONTAL_SPACING
                      - (Z.of_nat (length ids) - 1) * HORIZONTAL_SPACING / 2;
                 y := gen * VERTICAL_SPACING |}
     /\ get id (gens (layout_at tree startId)) = Some gen)%Z /\
  (forall idx id id' p p',
     nth_error ids idx = Some id -> nth_error ids (length ids - 1 - idx) = Some id' ->
     get id (personCoords (layout_at tree startId)) = Some p ->
     get id' (personCoords (layout_at tree startId)) = Some p' ->
     x p + x p' = 0)%Z /\
  (forall idx id id' p p',
     nth_error ids idx = Some id -> nth_error ids (S idx) = Some id' ->
     get id (personCoords (layout_at tree startId)) = Some p ->
     get id' (personCoords (layout_at tree startId)) = Some p' ->
     x p' - x p = HORIZONTAL_SPACING)%Z.
Proof.
  intros Hrow. split; [|split].
  - intros idx id Hn. split.
    + exact (personCoords_row tree startId gen ids idx Hrow Hn).
    + apply (rows_labelled tree startId gen ids id Hrow).
      exact (nth_error_In _ _ Hn).
  - intros idx id id' p p' Hn Hn' Hp Hp'.
    rewrite (personCoords_row tree startId gen ids idx Hrow Hn) in Hp.
    rewrite (personCoords_row tree startId gen ids _ Hrow Hn') in Hp'.
    inversion Hp; inversion Hp'; subst. cbn [x].
    apply row_x_mirror. apply nth_error_Some. congruence.
  - intros idx id id' p p' Hn Hn' Hp Hp'.
    rewrite (personCoords_row tree startId gen ids idx Hrow Hn) in Hp.
    rewrite (personCoords_row tree startId gen ids _ Hrow Hn') in Hp'.
    inversion Hp; inversion Hp'; subst. cbn [x]. apply row_x_step.
Qed.

Lemma layout_row_positions_witness :
  In (1%Z, ["C"; "D"]) (rows tree_RSCDE "R") /\
  get "C" (personCoords (layout tree_RSCDE)) = Some {| x := -150; y := 260 |} /\
  get "D" (personCoords (layout tree_RSCDE)) = Some {| x := 150; y := 260 |}.
Proof.
  assert (Hrow : In (1%Z, ["C"; "D"]) (rows tree_RSCDE "R"))
    by (vm_compute; right; left; reflexivity).
  split; [exact Hrow|].
  destruct (layout_row_positions tree_RSCDE "R" 1%Z ["C"; "D"] Hrow) as [Hpos _].
  split.
  - exact (proj1 (Hpos 0 "C" eq_refl)).
  - exact (proj1 (Hpos 1 "D" eq_refl)).
Defined.

(** C9: the person coordinate map and the generation mapping have the same
    keys, and an id with no path to the start is a key of neither. *)
Theorem layout_domain (tree : FamilyTree) (startId : string) (id : string) :
  (In id (keys (personCoords (layout_at tree startId)))
   <-> In id (keys (computeGenerations tree startId))) /\
  gens (layout_at tree startId) = computeGenerations tree startId /\
  (~ connected tree startId id ->
   get id (computeGenerations tree startId) = None /\
   get id (personCoords (layout_at tree startId)) = None).
Proof.
  split; [apply personCoords_keys|]. split; [reflexivity|].
  intros Hnc.
  assert (Hg : get id (computeGenerations tree startId) = None).
  { destruct (get id (computeGenerations tree startId)) as [l|] eqn:E; [|reflexivity].
    exfalso. apply Hnc. apply assigned_connected with (l := l).
    now apply computeGenerations_assigned. }
  split; [exact Hg|].
  apply get_none_keys. rewrite personCoords_keys. now apply get_none_keys.
Qed.

Lemma related_island a b :
  related tree_island a b ->
  In a ["R"; "S"; "C"; "D"; "E"] /\ In b ["R"; "S"; "C"; "D"; "E"].
Proof.
  intros Hr. inversion Hr as [m Hm|k m l s Hk Hl _ Hs]; subst.
  - destruct Hm as [<-|[<-|[]]]; simpl; tauto.
  - destruct Hk as [E|[E|[]]]; inversion E; subst k m;
      destruct Hl as [<-|[<-|[]]]; destruct Hs as [<-|[<-|[]]]; simpl; tauto.
Defined.

Lemma connected_island b :
  connected tree_island "R" b -> In b ["R"; "S"; "C"; "D"; "E"].
Proof.
  induction 1 as [|b c _ IH [Hr|Hr]].
  - now left.
  - exact (proj2 (related_island _ _ Hr)).
  - exact (proj1 (related_island _ _ Hr)).
Defined.

Lemma layout_domain_witness :
  In "Z" (keys (persons tree_island)) /\
  ~ connected tree_island "R" "Z" /\
  get "Z" (personCoords (layout tree_island)) = None.
Proof.
  assert (Hnc : ~ connected tree_island "R" "Z").
  { intros Hc. apply connected_island in Hc. simpl in Hc.
    repeat (destruct Hc as [Hc|Hc]; [discriminate Hc|]). exact Hc. }
  split; [simpl; tauto|]. split; [exact Hnc|].
  exact (proj2 (proj2 (proj2 (layout_domain tree_island "R" "Z")) Hnc)).
Defined.

Close Scope string_scope.

(** * Further properties of the mutation functions *)

Open Scope string_scope.
Open Scope list_scope.

(** ** Enumeration order depends on the keys only *)

Section KeyOrder.
Context {K V : Type} `{PropertyKey K}.

Definition key_is_index (k : K) : bool :=
  match array_index k with Some _ => true | None => false end.

Definition key_rank (k : K) : Z :=
  match array_index k with Some n => Z.of_N n | None => 0%Z end.

(** [Object.keys] as a function of the keys in creation order. *)
Definition ordered_keys (ks : list K) : list K :=
  sort_by key_rank (filter key_is_index ks)
  ++ filter (fun k => negb (key_is_index k)) ks.

Lemma map_fst_filter (p : K -> bool) (o : JsRecord K V) :
  map fst (filter (fun e => p (fst e)) o) = filter p (map fst o).
Proof.
  induction o as [|[k v] o IH]; simpl; [reflexivity|].
  destruct (p k); simpl; now rewrite IH.
Qed.

Lemma map_fst_sort_by (o : JsRecord K V) :
  map fst (sort_by (fun e => key_rank (fst e)) o) = sort_by key_rank (map fst o).
Proof.
  induction o as [|[k v] o IH]; simpl; [reflexivity|]. rewrite <- IH.
  generalize (sort_by (fun e : K * V => key_rank (fst e)) o). intros l.
  induction l as [|[k' v'] l IHl]; simpl; [reflexivity|].
  destruct (key_rank k <=? key_rank k')%Z; simpl; [reflexivity|now rewrite IHl].
Qed.

Lemma Object_keys_ordered (o : JsRecord K V) : Object_keys o = ordered_keys (keys o).
Proof.
  unfold Object_keys, Object_entries, ordered_keys, keys. rewrite map_app.
  f_equal.
  - change (@index_rank K V _) with (fun e : K * V => key_rank (fst e)).
    rewrite map_fst_sort_by. f_equal.
    apply (map_fst_filter key_is_index).
  - apply (map_fst_filter (fun k => negb (key_is_index k))).
Qed.

Lemma set_fresh k (v : V) (o : JsRecord K V) :
  get k o = None -> set k v o = o ++ [(k, v)].
Proof.
  induction o as [|[k' v'] o IH]; simpl; [reflexivity|].
  destruct (key_eqb k k'); [discriminate|]. intros E. now rewrite IH.
Qed.

Lemma ordered_keys_perm (ks : list K) : Permutation (ordered_keys ks) ks.
Proof.
  unfold ordered_keys. rewrite sort_by_perm.
  induction ks as [|a l IH]; simpl; [constructor|].
  destruct (key_is_index a); simpl.
  - apply perm_skip, IH.
  - rewrite <- Permutation_middle. apply perm_skip, IH.
Qed.

Lemma ordered_keys_nonempty (ks : list K) : ks <> [] -> ordered_keys ks <> [].
Proof.
  intros Hne E. apply Hne. pose proof (ordered_keys_perm ks) as Hp.
  rewrite E in Hp. now apply Permutation_nil in Hp.
Qed.

(** A new key that is no array index is enumerated last. *)
Lemma ordered_keys_snoc (ks : list K) k :
  key_is_index k = false -> ordered_keys (ks ++ [k]) = ordered_keys ks ++ [k].
Proof.
  intros Hk. unfold ordered_keys. rewrite !filter_app. simpl. rewrite Hk. simpl.
  now rewrite app_nil_r, app_assoc.
Qed.
End KeyOrder.

Lemma has_set_present {V} (k k' : string) (v : V) (o : JsRecord string V) :
  has k o = true -> has k' (set k v o) = has k' o.
Proof.
  intros Hk. unfold has in *. destruct (String.eqb_spec k' k) as [->|Hne].
  - rewrite get_set_eq. destruct (get k o); [reflexivity|discriminate].
  - now rewrite get_set_neq.
Qed.

(** ** The traversal and the layout do not read the persons *)

Lemma bfs_loop_persons tree tree' fuel st :
  marriages tree = marriages tree' -> children tree = children tree' ->
  bfs_loop tree fuel st = bfs_loop tree' fuel st.
Proof.
  destruct tree as [ps ms cs], tree' as [ps' ms' cs']. simpl.
  intros <- <-. revert st. induction fuel as [|fuel IH]; intros st; simpl;
    [reflexivity|].
  destruct (queue st); [reflexivity|]. apply IH.
Qed.

Lemma layout_at_persons tree tree' startId :
  marriages tree = marriages tree' -> children tree = children tree' ->
  has startId (persons tree) = has startId (persons tree') ->
  layout_at tree startId = layout_at tree' startId.
Proof.
  intros Hm Hc Hh.
  assert (Hg : computeGenerations tree startId = computeGenerations tree' startId).
  { unfold computeGenerations, bfs_fuel. rewrite !truthy_at_has, Hh, Hm, Hc.
    now rewrite (bfs_loop_persons tree tree' _ _ Hm Hc). }
  unfold layout_at, rows, group_by_generation, place_person.
  now rewrite Hg, Hm.
Qed.

(** ** Adding and updating persons *)

Lemma rootId_ordered tree :
  rootId tree = hd "undefined" (ordered_keys (keys (persons tree))).
Proof. unfold rootId. now rewrite Object_keys_ordered. Qed.

Lemma rootId_has tree : persons tree <> [] -> has (rootId tree) (persons tree) = true.
Proof.
  intros Hne. rewrite rootId_ordered.
  assert (Hk : keys (persons tree) <> []).
  { unfold keys. destruct (persons tree); [congruence|discriminate]. }
  pose proof (ordered_keys_nonempty _ Hk) as Ho.
  pose proof (ordered_keys_perm (keys (persons tree))) as Hp.
  destruct (ordered_keys (keys (persons tree))) as [|r l]; [congruence|]. simpl.
  assert (Hin : In r (keys (persons tree))) by (apply (Permutation_in _ Hp); now left).
  apply get_some_keys in Hin. unfold has. destruct (get r (persons tree)); congruence.
Qed.

Lemma rootId_addPerson tree p :
  has (p_id p) (persons tree) = true \/
  (persons tree <> [] /\ string_array_index (p_id p) = None) ->
  rootId (addPerson tree p) = rootId tree.
Proof.
  intros Hcase. rewrite !rootId_ordered. simpl. rewrite keys_set.
  destruct (get (p_id p) (persons tree)) eqn:Eg; [reflexivity|].
  destruct Hcase as [Hhas|[Hne Hidx]].
  - unfold has in Hhas. now rewrite Eg in Hhas.
  - rewrite ordered_keys_snoc by (unfold key_is_index; simpl; now rewrite Hidx).
    assert (Hk : keys (persons tree) <> []).
    { unfold keys. destruct (persons tree); [congruence|discriminate]. }
    pose proof (ordered_keys_nonempty _ Hk) as Ho.
    now destruct (ordered_keys (keys (persons tree))).
Qed.

(** X1.  Editing a profile, or adding a person whose id is not an array
    index to a tree that has persons, leaves the whole layout as it was:
    generations, person coordinates and marriage coordinates. *)
Theorem addPerson_keeps_layout (tree : FamilyTree) (p : Person) :
  has (p_id p) (persons tree) = true \/
  (persons tree <> [] /\ string_array_index (p_id p) = None) ->
  layout (addPerson tree p) = layout tree /\
  layout (updatePerson tree p) = layout tree.
Proof.
  intros Hcase.
  assert (Hne : persons tree <> []).
  { destruct Hcase as [Hhas|[Hne _]]; [|exact Hne].
    intros E. rewrite E in Hhas. discriminate. }
  assert (Hl : layout (addPerson tree p) = layout tree).
  { unfold layout. rewrite rootId_addPerson by exact Hcase.
    apply layout_at_persons; [reflexivity|reflexivity|].
    rewrite (rootId_has tree Hne). simpl. unfold has.
    destruct (String.eqb_spec (rootId tree) (p_id p)) as [->|Hd].
    - now rewrite get_set_eq.
    - rewrite get_set_neq by exact Hd. apply (rootId_has tree Hne). }
  split; exact Hl.
Qed.

Lemma addPerson_keeps_layout_witness :
  (persons tree_RSCDE <> [] /\ string_array_index (p_id (mkPerson "Z" female)) = None) /\
  layout (addPerson tree_RSCDE (mkPerson "Z" female)) = layout tree_RSCDE.
Proof.
  assert (H : persons tree_RSCDE <> [] /\
              string_array_index (p_id (mkPerson "Z" female)) = None)
    by (split; [discriminate|reflexivity]).
  split; [exact H|].
  exact (proj1 (addPerson_keeps_layout tree_RSCDE (mkPerson "Z" female) (or_intror H))).
Defined.

(** A new person whose id is an array index is enumerated first and becomes
    the root of the layout. *)
Example rootId_moves_to_index_key :
  rootId tree_RSCDE = "R" /\ rootId (addPerson tree_RSCDE (mkPerson "7" male)) = "7".
Proof. split; reflexivity. Qed.

(** X2.  Whoever is added or updated, the traversal from a person of the
    tree gives the same generations and the same layout as before; so does
    the layout rooted at that person as the focus. *)
Theorem addPerson_keeps_generations (tree : FamilyTree) (p : Person) (startId : string) :
  has startId (persons tree) = true ->
  computeGenerations (addPerson tree p) startId = computeGenerations tree startId /\
  layout_at (addPerson tree p) startId = layout_at tree startId.
Proof.
  intros Hhas.
  assert (Hh : has startId (persons (addPerson tree p)) = has startId (persons tree)).
  { simpl. rewrite Hhas. unfold has.
    destruct (String.eqb_spec startId (p_id p)) as [->|Hd].
    - now rewrite get_set_eq.
    - rewrite get_set_neq by exact Hd. exact Hhas. }
  assert (Hl : layout_at (addPerson tree p) startId = layout_at tree startId)
    by (apply layout_at_persons; [reflexivity|reflexivity|exact Hh]).
  split; [|exact Hl].
  change (gens (layout_at (addPerson tree p) startId) = gens (layout_at tree startId)).
  now rewrite Hl.
Qed.

Lemma addPerson_keeps_generations_witness :
  has "C" (persons tree_RSCDE) = true /\
  computeGenerations (addPerson tree_RSCDE (mkPerson "7" male)) "C"
    = computeGenerations tree_RSCDE "C".
Proof.
  split; [reflexivity|].
  exact (proj1 (addPerson_keeps_generations tree_RSCDE (mkPerson "7" male) "C" eq_refl)).
Defined.

(** ** Child links *)

Lemma is_link_eq mId pId l : is_link mId pId l = true <-> l = mkLink mId pId.
Proof.
  unfold is_link, mkLink. rewrite andb_true_iff, !String.eqb_eq.
  destruct l as [m p]. simpl. split.
  - intros [-> ->]. reflexivity.
  - intros E. inversion E. auto.
Qed.

Lemma existsb_is_link mId pId ls :
  existsb (is_link mId pId) ls = true <-> In (mkLink mId pId) ls.
Proof.
  rewrite existsb_exists. split.
  - intros [l [Hin Hl]]. apply is_link_eq in Hl. now subst.
  - intros Hin. exists (mkLink mId pId). split; [exact Hin|]. now apply is_link_eq.
Qed.

Lemma addChild_children tree mId pId :
  children (addChild tree mId pId)
  = if existsb (is_link mId pId) (children tree) then children tree
    else children tree ++ [mkLink mId pId].
Proof.
  unfold addChild. now destruct (existsb (is_link mId pId) (children tree)).
Qed.

Lemma addChild_persons tree mId pId : persons (addChild tree mId pId) = persons tree.
Proof. unfold addChild. now destruct (existsb _ _). Qed.

Lemma addChild_marriages tree mId pId :
  marriages (addChild tree mId pId) = marriages tree.
Proof. unfold addChild. now destruct (existsb _ _). Qed.

Lemma addChild_NoDup tree mId pId :
  NoDup (children tree) -> NoDup (children (addChild tree mId pId)).
Proof.
  intros Hnd. rewrite addChild_children.
  destruct (existsb (is_link mId pId) (children tree)) eqn:E; [exact Hnd|].
  apply (Permutation_NoDup (l := mkLink mId pId :: children tree));
    [apply Permutation_cons_append|].
  constructor; [|exact Hnd]. intros Hin. apply existsb_is_link in Hin. congruence.
Qed.

(** X3.  [addChild] leaves persons and marriages alone, keeps the existing
    links in their order and adds at most the requested one at the end; the
    requested link is present afterwards, and a list of links without
    repetition stays without repetition. *)
Theorem addChild_links (tree : FamilyTree) (mId pId : string) :
  persons (addChild tree mId pId) = persons tree /\
  marriages (addChild tree mId pId) = marriages tree /\
  (children (addChild tree mId pId) = children tree \/
   children (addChild tree mId pId) = children tree ++ [mkLink mId pId]) /\
  In (mkLink mId pId) (children (addChild tree mId pId)) /\
  (NoDup (children tree) -> NoDup (children (addChild tree mId pId))).
Proof.
  split; [|split; [|split; [|split]]].
  - apply addChild_persons.
  - apply addChild_marriages.
  - rewrite addChild_children. destruct (existsb _ _); auto.
  - apply existsb_is_link, addChild_contains.
  - apply addChild_NoDup.
Qed.

Lemma addChild_links_witness :
  NoDup (children tree_RSCDE) /\
  NoDup (children (addChild tree_RSCDE "m1" "E")).
Proof.
  assert (H : NoDup (children tree_RSCDE)).
  { simpl. constructor; [intros [E|[]]; discriminate E|].
    constructor; [intros []|constructor]. }
  split; [exact H|].
  exact (proj2 (proj2 (proj2 (proj2 (addChild_links tree_RSCDE "m1" "E")))) H).
Defined.

(** X4.  The children of a marriage after [addChild]: the new child comes
    last among the children of its marriage unless it was one already, and
    the children of every other marriage are unchanged. *)
Theorem getChildrenOfMarriage_addChild (tree : FamilyTree) (mId pId mId' : string) :
  getChildrenOfMarriage (addChild tree mId pId) mId'
  = if (mId' =? mId) && negb (existsb (String.eqb pId) (getChildrenOfMarriage tree mId))
    then getChildrenOfMarriage tree mId ++ [pId]
    else getChildrenOfMarriage tree mId'.
Proof.
  assert (Hex : existsb (String.eqb pId) (getChildrenOfMarriage tree mId)
                = existsb (is_link mId pId) (children tree)).
  { unfold getChildrenOfMarriage, is_link.
    induction (children tree) as [|l ls IH]; simpl; [reflexivity|].
    destruct (marriageId l =? mId) eqn:Em; simpl; [|exact IH].
    rewrite IH. now rewrite (String.eqb_sym pId). }
  rewrite Hex. unfold getChildrenOfMarriage at 1. rewrite addChild_children.
  destruct (existsb (is_link mId pId) (children tree)); simpl.
  - now rewrite andb_false_r.
  - rewrite andb_true_r, filter_app, map_app. simpl.
    rewrite (String.eqb_sym mId mId').
    destruct (String.eqb_spec mId' mId) as [->|Hne]; simpl.
    + reflexivity.
    + now rewrite app_nil_r.
Qed.

(** ** Deleting persons *)

Lemma doomed_false pId ms k m :
  get k ms = Some m -> (doomed pId ms k = false <-> spouse1Id m <> pId /\ spouse2Id m <> pId).
Proof. intros E. unfold doomed. rewrite E. apply involves_false. Qed.

Lemma has_prune a ms k : has k (prune_marriages a ms) = negb (doomed a ms k) && has k ms.
Proof.
  unfold has. rewrite get_prune_marriages. now destruct (doomed a ms k).
Qed.

(** X5.  What [deletePerson] leaves alone: every other person, every
    marriage that does not name the deleted id, and exactly the child links
    of other persons whose [marriageId] is the key of a marriage that does
    not name it or is a name inherited from [Object.prototype]. *)
Theorem deletePerson_frame (tree : FamilyTree) (pId : string) :
  (forall k, k <> pId ->
     get k (persons (deletePerson tree pId)) = get k (persons tree)) /\
  (forall k m, get k (marriages tree) = Some m ->
     spouse1Id m <> pId -> spouse2Id m <> pId ->
     get k (marriages (deletePerson tree pId)) = Some m) /\
  (forall l, In l (children (deletePerson tree pId)) <->
     In l (children tree) /\ personId l <> pId /\
     ((exists m, get (marriageId l) (marriages tree) = Some m /\
                 spouse1Id m <> pId /\ spouse2Id m <> pId) \/
      inherited (marriageId l) = true)).
Proof.
  split; [|split].
  - intros k Hne. simpl. rewrite get_delete.
    destruct (key_eqb_spec pId k) as [E|_]; [congruence|reflexivity].
  - intros k m Hg H1 H2. simpl. rewrite get_prune_marriages.
    rewrite (proj2 (doomed_false pId _ _ _ Hg)); auto.
  - intros l. simpl. rewrite filter_In, andb_true_iff, negb_true_iff, String.eqb_neq.
    rewrite truthy_at_has, has_prune, orb_true_iff. unfold has.
    destruct (get (marriageId l) (marriages tree)) as [m|] eqn:Eg.
    + rewrite andb_true_r, negb_true_iff, (doomed_false pId _ _ _ Eg). split.
      * intros [Hin [Hp [Hs|Hi]]]; [|tauto].
        split; [exact Hin|split; [exact Hp|left; now exists m]].
      * intros [Hin [Hp [[m' [Em' Hs]]|Hi]]]; [|tauto].
        inversion Em'; subst m'. tauto.
    + rewrite andb_false_r. split.
      * intros [Hin [Hp [Hf|Hi]]]; [discriminate Hf|tauto].
      * intros [Hin [Hp [[m' [Em' _]]|Hi]]]; [discriminate Em'|tauto].
Qed.

(** X23.  The part of C1 the code keeps, for any id: after [deletePerson]
    the id is no key of the person mapping, no marriage names it, no
    remaining child link is the id's own, and every remaining child link
    whose [marriageId] is no name inherited from [Object.prototype] names a
    marriage of the result. *)
Theorem deletePerson_cascade_own (tree : FamilyTree) (pId : string) :
  get pId (persons (deletePerson tree pId)) = None /\
  (forall k m, get k (marriages (deletePerson tree pId)) = Some m ->
               spouse1Id m <> pId /\ spouse2Id m <> pId) /\
  (forall link, In link (children (deletePerson tree pId)) ->
                inherited (marriageId link) = false ->
                get (marriageId link) (marriages (deletePerson tree pId)) <> None) /\
  (forall link, In link (children (deletePerson tree pId)) -> personId link <> pId).
Proof.
  simpl. split; [|split; [|split]].
  - rewrite get_delete. simpl. now rewrite String.eqb_refl.
  - intros k m Hg. rewrite get_prune_marriages in Hg.
    destruct (doomed pId (marriages tree) k) eqn:Ed; [discriminate|].
    unfold doomed in Ed. rewrite Hg in Ed. now apply involves_false in Ed.
  - intros link Hin Hinh E. apply filter_In in Hin. destruct Hin as [_ Hp].
    apply andb_true_iff in Hp. destruct Hp as [_ Hp]. unfold truthy_at in Hp.
    rewrite E in Hp. congruence.
  - intros link Hin. apply filter_In in Hin. destruct Hin as [_ Hp].
    apply andb_true_iff in Hp. destruct Hp as [Hp _].
    apply negb_true_iff in Hp. now apply String.eqb_neq in Hp.
Qed.

Lemma prune_prune a b ms :
  prune_marriages b (prune_marriages a ms)
  = kfilter (fun k => negb (doomed a ms k) && negb (doomed b ms k)) ms.
Proof.
  rewrite (prune_marriages_filter b (prune_marriages a ms)).
  transitivity (kfilter (fun k => negb (doomed b (prune_marriages a ms) k))
                        (kfilter (fun k => negb (doomed a ms k)) ms)).
  { f_equal. apply prune_marriages_filter. }
  unfold kfilter. rewrite filter_filter.
  apply filter_ext. intros [k v]. simpl.
  destruct (doomed a ms k) eqn:Ea; simpl; [reflexivity|].
  f_equal. unfold doomed at 1. rewrite get_prune_marriages, Ea. reflexivity.
Qed.

(** X6.  Deletions commute: removing two persons in either order gives the
    same tree. *)
Theorem deletePerson_commute (tree : FamilyTree) (a b : string) :
  deletePerson (deletePerson tree a) b = deletePerson (deletePerson tree b) a.
Proof.
  unfold deletePerson. simpl.
  assert (Hm : prune_marriages b (prune_marriages a (marriages tree))
               = prune_marriages a (prune_marriages b (marriages tree))).
  { rewrite !prune_prune. apply filter_ext. intros [k v]. simpl. apply andb_comm. }
  f_equal.
  - unfold delete. rewrite !filter_filter. apply filter_ext. intros e. apply andb_comm.
  - exact Hm.
  - rewrite !filter_filter. apply filter_ext. intros l.
    rewrite !truthy_at_has, !prune_prune, !has_prune. unfold has, kfilter.
    rewrite !(get_filter_key
                (fun k => negb (doomed a (marriages tree) k)
                          && negb (doomed b (marriages tree) k))).
    rewrite !(get_filter_key
                (fun k => negb (doomed b (marriages tree) k)
                          && negb (doomed a (marriages tree) k))).
    destruct (personId l =? a), (personId l =? b),
      (doomed a (marriages tree) (marriageId l)),
      (doomed b (marriages tree) (marriageId l)),
      (get (marriageId l) (marriages tree)), (inherited (marriageId l)); reflexivity.
Qed.

(** ** The forms: adding a spouse, a child, parents *)

(** The object literal [{ id, name, gender, external? }]. *)
Definition newPerson (id nm : string) (g : Gender) (ext : option bool) : Person :=
  {| p_id := id; name := nm; gender := g; birthYear := None; deathYear := None;
     notes := None; external := ext; email := None; phone := None |}.

(** The initial state of the application. *)
Definition emptyTree : FamilyTree := {| persons := []; marriages := []; children := [] |}.

(** Submitting "add spouse" for [addingSpouseToPersonId], with the two
    generated ids. *)
Definition submitSpouse (tree : FamilyTree) (addingSpouseToPersonId id mId nm : string)
    (g : Gender) : FamilyTree :=
  let next := addPerson tree (newPerson id nm g (Some true)) in
  addMarriage next {| m_id := mId; spouse1Id := addingSpouseToPersonId;
                      spouse2Id := id; marriageYear := None |}.

(** Submitting "add child" for [addingChildToMarriageId]. *)
Definition submitChild (tree : FamilyTree) (addingChildToMarriageId id nm : string)
    (g : Gender) : FamilyTree :=
  let next := addPerson tree (newPerson id nm g None) in
  addChild next addingChildToMarriageId id.

(** Submitting "add parents" for [addingParentToPersonId]. *)
Definition submitParents (tree : FamilyTree)
    (addingParentToPersonId p1Id p2Id mId p1n p2n : string) : FamilyTree :=
  let next := addPerson tree (newPerson p1Id p1n male None) in
  let next := addPerson next (newPerson p2Id p2n female None) in
  let next := addMarriage next {| m_id := mId; spouse1Id := p1Id; spouse2Id := p2Id;
                                  marriageYear := None |} in
  addChild next mId addingParentToPersonId.

(** ** Trees the application builds *)

(** Every person is stored under its own id and no key occurs twice. *)
Definition persons_keyed_by_id (ps : JsRecord string Person) : Prop :=
  NoDup (keys ps) /\ forall k p, In (k, p) ps -> k = p_id p.

Definition structured (tree : FamilyTree) : Prop :=
  persons_keyed_by_id (persons tree) /\ keyed_by_id (marriages tree) /\
  NoDup (children tree).

(** The trees reached from the empty tree by the mutation functions. *)
Inductive built : FamilyTree -> Prop :=
| built_empty : built emptyTree
| built_addPerson tree p : built tree -> built (addPerson tree p)
| built_updatePerson tree p : built tree -> built (updatePerson tree p)
| built_addMarriage tree m : built tree -> built (addMarriage tree m)
| built_addChild tree mId pId : built tree -> built (addChild tree mId pId)
| built_deletePerson tree pId : built tree -> built (deletePerson tree pId).

Lemma keys_kfilter {V} (q : string -> bool) (o : JsRecord string V) :
  keys (kfilter q o) = filter q (keys o).
Proof. unfold keys, kfilter. apply (map_fst_filter q). Qed.

Lemma NoDup_keys_kfilter {V} (q : string -> bool) (o : JsRecord string V) :
  NoDup (keys o) -> NoDup (keys (kfilter q o)).
Proof. intros Hnd. rewrite keys_kfilter. now apply NoDup_filter. Qed.

Lemma addPerson_keyed tree p :
  persons_keyed_by_id (persons tree) -> persons_keyed_by_id (persons (addPerson tree p)).
Proof.
  intros [Hnd Hkey]. split; simpl.
  - now apply NoDup_keys_set.
  - intros k p' Hin. apply In_set_inv in Hin. simpl in Hin.
    destruct Hin as [[-> ->]|Hin]; [reflexivity|now apply Hkey].
Qed.

Lemma deletePerson_structured tree pId : structured tree -> structured (deletePerson tree pId).
Proof.
  intros [[Hpn Hpk] [[Hmn Hmk] Hc]]. split; [|split]; simpl.
  - split.
    + apply (NoDup_keys_kfilter (fun k => negb (pId =? k)) (persons tree) Hpn).
    + intros k p Hin. apply filter_In in Hin. apply Hpk. tauto.
  - rewrite prune_marriages_filter. split.
    + now apply NoDup_keys_kfilter.
    + intros k m Hin. apply filter_In in Hin. apply Hmk. tauto.
  - now apply NoDup_filter.
Qed.

(** X7.  Every tree built from the empty tree with the five mutation
    functions stores each person and each marriage under its own id, has no
    key twice and no child link twice; in particular its marriage ids are
    unique. *)
Theorem built_structured (tree : FamilyTree) :
  built tree -> structured tree /\ marriage_ids_unique tree.
Proof.
  intros Hb.
  assert (Hs : structured tree).
  { induction Hb as [|tree p _ IH|tree p _ IH|tree m _ IH|tree mId pId _ IH
                     |tree pId _ IH].
    - repeat split; simpl; try constructor; intros ? ? [].
    - destruct IH as [Hp [Hm Hc]]. split; [now apply addPerson_keyed|now split].
    - destruct IH as [Hp [Hm Hc]]. split; [now apply addPerson_keyed|now split].
    - destruct IH as [Hp [Hm Hc]].
      split; [exact Hp|split; [now apply addMarriage_keyed_by_id|exact Hc]].
    - destruct IH as [Hp [Hm Hc]]. unfold structured.
      rewrite addChild_persons, addChild_marriages.
      split; [exact Hp|split; [exact Hm|now apply addChild_NoDup]].
    - now apply deletePerson_structured. }
  split; [exact Hs|]. apply keyed_by_id_unique. apply Hs.
Qed.

Lemma built_tree_dangling : built tree_dangling.
Proof. unfold tree_dangling. apply built_addMarriage, built_addPerson, built_empty. Defined.

Lemma built_structured_witness :
  built tree_dangling /\ marriage_ids_unique tree_dangling.
Proof.
  split; [exact built_tree_dangling|].
  exact (proj2 (built_structured tree_dangling built_tree_dangling)).
Defined.

(** ** Referential integrity *)

(** Every spouse id and child id is a person, and every child link names
    a marriage of the tree. *)
Definition intact (tree : FamilyTree) : Prop :=
  references_resolve tree /\
  forall l, In l (children tree) -> has (marriageId l) (marriages tree) = true.

Lemma has_In_keys {V} (k : string) (o : JsRecord string V) :
  has k o = true <-> In k (keys o).
Proof.
  rewrite <- get_some_keys. unfold has. destruct (get k o); split; congruence.
Qed.

Lemma has_set {V} (k k' : string) (v : V) (o : JsRecord string V) :
  has k' (set k v o) = (k' =? k) || has k' o.
Proof.
  unfold has. destruct (String.eqb_spec k' k) as [->|Hne]; simpl.
  - now rewrite get_set_eq.
  - now rewrite get_set_neq.
Qed.

Lemma In_get_NoDup {V} (k : string) (v : V) (o : JsRecord string V) :
  NoDup (keys o) -> In (k, v) o -> get k o = Some v.
Proof.
  induction o as [|[k' v'] o IH]; simpl; [tauto|].
  intros Hnd [E|Hin]; inversion Hnd as [|? ? Hnot Hnd']; subst.
  - inversion E; subst. now rewrite String.eqb_refl.
  - destruct (String.eqb_spec k k') as [->|_]; [|now apply IH].
    exfalso. apply Hnot. unfold keys. apply in_map_iff. now exists (k', v).
Qed.

Lemma intact_addPerson tree p : intact tree -> intact (addPerson tree p).
Proof.
  intros [[Hsp Hch] Hl]. split; [split|]; simpl.
  - intros k m Hin. destruct (Hsp k m Hin) as [H1 H2].
    split; intros Ht; apply In_keys_set; right; auto.
  - intros l Hin. apply In_keys_set. right. auto.
  - exact Hl.
Qed.

Lemma intact_addMarriage tree m :
  intact tree ->
  (truthy (spouse1Id m) = true -> has (spouse1Id m) (persons tree) = true) ->
  (truthy (spouse2Id m) = true -> has (spouse2Id m) (persons tree) = true) ->
  intact (addMarriage tree m).
Proof.
  intros [[Hsp Hch] Hl] H1 H2. split; [split|]; simpl.
  - intros k m' Hin. apply In_set_inv in Hin. simpl in Hin.
    destruct Hin as [[_ ->]|Hin]; [|now apply (Hsp k)].
    split; intros Ht; apply has_In_keys; auto.
  - exact Hch.
  - intros l Hin. rewrite has_set, (Hl l Hin). apply orb_true_r.
Qed.

Lemma intact_addChild tree mId pId :
  intact tree ->
  has mId (marriages tree) = true -> has pId (persons tree) = true ->
  intact (addChild tree mId pId).
Proof.
  intros [[Hsp Hch] Hl] Hm Hp.
  assert (Hin : forall l, In l (children (addChild tree mId pId)) ->
                          In l (children tree) \/ l = mkLink mId pId).
  { intros l. rewrite addChild_children. destruct (existsb _ _); [auto|].
    intros H. apply in_app_or in H. destruct H as [H|[<-|[]]]; auto. }
  split; [split|]; rewrite ?addChild_persons, ?addChild_marriages.
  - exact Hsp.
  - intros l Hl'. destruct (Hin l Hl') as [H| ->]; [auto|]. now apply has_In_keys.
  - intros l Hl'. destruct (Hin l Hl') as [H| ->]; [auto|exact Hm].
Qed.

(** X8.  Which calls keep referential integrity: [addPerson] always;
    [addMarriage] when its non-empty spouse ids are persons; [addChild] when
    the marriage and the person exist; [deletePerson] always, and it also
    restores the second half (every remaining link names a marriage) when
    only the first held. *)
Theorem mutations_keep_intact (tree : FamilyTree) :
  intact tree ->
  (forall p, intact (addPerson tree p) /\ intact (updatePerson tree p)) /\
  (forall m,
     (truthy (spouse1Id m) = true -> has (spouse1Id m) (persons tree) = true) ->
     (truthy (spouse2Id m) = true -> has (spouse2Id m) (persons tree) = true) ->
     intact (addMarriage tree m)) /\
  (forall mId pId,
     has mId (marriages tree) = true -> has pId (persons tree) = true ->
     intact (addChild tree mId pId)).
Proof.
  intros Hi. split; [|split].
  - intros p. split; now apply intact_addPerson.
  - intros m. now apply intact_addMarriage.
  - intros mId pId. now apply intact_addChild.
Qed.

Lemma intact_RSCDE : intact tree_RSCDE.
Proof.
  split; [exact references_resolve_RSCDE|].
  intros l [<-|[<-|[]]]; reflexivity.
Defined.

Lemma mutations_keep_intact_witness :
  intact tree_RSCDE /\ intact (addChild tree_RSCDE "m1" "E").
Proof.
  split; [exact intact_RSCDE|].
  apply (mutations_keep_intact tree_RSCDE intact_RSCDE); reflexivity.
Defined.

Lemma In_keys_delete {V} (k x : string) (o : JsRecord string V) :
  In k (keys (delete x o)) <-> In k (keys o) /\ k <> x.
Proof.
  rewrite <- !get_some_keys, get_delete.
  destruct (key_eqb_spec x k) as [->|Hne]; split.
  - congruence.
  - intros [_ Hc]. congruence.
  - intros Hg. split; [exact Hg|congruence].
  - tauto.
Qed.

(** X9.  On a tree whose marriage keys are distinct and whose child links
    carry no [marriageId] inherited from [Object.prototype], [deletePerson]
    keeps every spouse id and child id resolving to a person, and leaves no
    child link without its marriage. *)
Theorem deletePerson_keeps_intact (tree : FamilyTree) (pId : string) :
  NoDup (keys (marriages tree)) -> references_resolve tree ->
  (forall l, In l (children tree) -> inherited (marriageId l) = false) ->
  intact (deletePerson tree pId).
Proof.
  intros Hnd [Hsp Hch] Hown. split; [split|].
  - intros k m Hin. simpl in Hin. rewrite prune_marriages_filter in Hin.
    apply filter_In in Hin. simpl in Hin. destruct Hin as [Hin Hd].
    apply negb_true_iff in Hd.
    apply (doomed_false pId _ _ _ (In_get_NoDup _ _ _ Hnd Hin)) in Hd.
    destruct (Hsp k m Hin) as [H1 H2]. cbn [persons deletePerson].
    split; intros Ht; apply In_keys_delete; (split; [auto|tauto]).
  - intros l Hin. cbn [children persons deletePerson] in *.
    apply filter_In in Hin. destruct Hin as [Hin Hp].
    apply andb_true_iff in Hp. destruct Hp as [Hp _].
    apply negb_true_iff, String.eqb_neq in Hp.
    apply In_keys_delete. split; [auto|exact Hp].
  - intros l Hin. cbn [children marriages deletePerson] in *.
    apply filter_In in Hin. destruct Hin as [Hin Hp].
    apply andb_true_iff in Hp. destruct Hp as [_ Hp].
    rewrite truthy_at_has, (Hown l Hin), orb_false_r in Hp. exact Hp.
Qed.

Lemma links_own_RSCDE l :
  In l (children tree_RSCDE) -> inherited (marriageId l) = false.
Proof. intros [<-|[<-|[]]]; reflexivity. Defined.

Lemma deletePerson_keeps_intact_witness :
  NoDup (keys (marriages tree_RSCDE)) /\ references_resolve tree_RSCDE /\
  (forall l, In l (children tree_RSCDE) -> inherited (marriageId l) = false) /\
  intact (deletePerson tree_RSCDE "S").
Proof.
  assert (Hnd : NoDup (keys (marriages tree_RSCDE))).
  { simpl. constructor; [intros [E|[]]; discriminate E|].
    constructor; [intros []|constructor]. }
  split; [exact Hnd|]. split; [exact references_resolve_RSCDE|].
  split; [exact links_own_RSCDE|].
  exact (deletePerson_keeps_intact tree_RSCDE "S" Hnd references_resolve_RSCDE
           links_own_RSCDE).
Defined.

(** X10.  The three forms keep referential integrity when the person or
    marriage they were opened for exists, whatever ids are generated. *)
Theorem submit_keeps_intact (tree : FamilyTree) :
  intact tree ->
  (forall target id mId nm g,
     has target (persons tree) = true ->
     intact (submitSpouse tree target id mId nm g)) /\
  (forall target id nm g,
     has target (marriages tree) = true ->
     intact (submitChild tree target id nm g)) /\
  (forall target p1Id p2Id mId p1n p2n,
     has target (persons tree) = true ->
     intact (submitParents tree target p1Id p2Id mId p1n p2n)).
Proof.
  intros Hi. split; [|split].
  - intros target id mId nm g Ht. unfold submitSpouse.
    apply intact_addMarriage; [now apply intact_addPerson| |]; simpl; intros _;
      rewrite has_set; [rewrite Ht; apply orb_true_r|].
    now rewrite String.eqb_refl.
  - intros target id nm g Ht. unfold submitChild.
    apply intact_addChild; [now apply intact_addPerson|exact Ht|].
    simpl. rewrite has_set. now rewrite String.eqb_refl.
  - intros target p1Id p2Id mId p1n p2n Ht. unfold submitParents.
    apply intact_addChild.
    + apply intact_addMarriage; [now apply intact_addPerson, intact_addPerson| |];
        simpl; intros _; rewrite !has_set, ?String.eqb_refl;
        [apply orb_true_r|reflexivity].
    + simpl. rewrite has_set. now rewrite String.eqb_refl.
    + simpl. rewrite !has_set, Ht. now rewrite !orb_true_r.
Qed.

Lemma submit_keeps_intact_witness :
  intact tree_RSCDE /\ has "E" (persons tree_RSCDE) = true /\
  intact (submitSpouse tree_RSCDE "E" "F" "m3" "Frank" male).
Proof.
  split; [exact intact_RSCDE|]. split; [reflexivity|].
  apply (submit_keeps_intact tree_RSCDE intact_RSCDE). reflexivity.
Defined.

(** * Further properties of the traversal *)

Section FoldEach.
Context {S A : Type} (f : S -> A -> S) (Q : A -> S -> Prop).
Hypothesis Q_kept : forall s a b, Q a s -> Q a (f s b).
Hypothesis Q_made : forall s a, Q a (f s a).

(** What each step establishes for its own element holds for every element
    after the whole fold. *)
Lemma fold_left_each l : forall s a, In a l -> Q a (fold_left f l s).
Proof.
  induction l as [|b l IH]; intros s a Hin; simpl; [destruct Hin|].
  destruct Hin as [->|Hin]; [|now apply IH].
  apply fold_left_preserves with (P := Q a); [intros; now apply Q_kept|apply Q_made].
Qed.
End FoldEach.

Lemma mentioned_spouses tree k m :
  In (k, m) (marriages tree) ->
  In (spouse1Id m) (mentioned tree) /\ In (spouse2Id m) (mentioned tree).
Proof.
  intros Hin. unfold mentioned.
  split; apply in_or_app; left; apply in_flat_map; exists (k, m); simpl; auto.
Qed.

Lemma mentioned_child tree l : In l (children tree) -> In (personId l) (mentioned tree).
Proof. intros Hin. unfold mentioned. apply in_or_app. right. now apply in_map. Qed.

Lemma value_entry tree m :
  In m (Object_values (marriages tree)) <-> exists k, In (k, m) (marriages tree).
Proof.
  split; [apply marriage_value_entry|]. intros [k Hin].
  apply Object_values_In. apply in_map_iff. now exists (k, m).
Qed.

Lemma spouse_of_In id m : In (spouse_of id m) [spouse1Id m; spouse2Id m].
Proof. destruct (spouse_of_cases id m) as [-> | ->]; simpl; auto. Qed.

Section Traversal.
Variable tree : FamilyTree.
Variable startId : string.

(** The edges the loop body follows from [y], with the level offset it
    gives the target. *)
Inductive edge : string -> string -> Z -> Prop :=
| edge_spouse y m :
    In m (Object_values (marriages tree)) -> involves y m = true ->
    truthy (spouse_of y m) = true ->
    edge y (spouse_of y m) 0
| edge_child y m l :
    In m (Object_values (marriages tree)) -> involves y m = true ->
    In l (children tree) -> marriageId l = m_id m ->
    edge y (personId l) 1
| edge_parent y l m p :
    find (fun link => (personId link =? y)%string) (children tree) = Some l ->
    get (marriageId l) (marriages tree) = Some m ->
    In p [spouse1Id m; spouse2Id m] -> truthy p = true ->
    edge y p (-1).

Lemma edge_offset y x d : edge y x d -> (-1 <= d <= 1)%Z.
Proof. destruct 1; lia. Qed.

(** Every target of an edge is an id that a marriage or a child link
    mentions. *)
Lemma edge_mentioned y x d : edge y x d -> In x (mentioned tree).
Proof.
  intros He. destruct He as [y m Hm Hi Ht|y m l Hm Hi Hl Hml|y l m p Hf Hg Hp Ht].
  - apply value_entry in Hm. destruct Hm as [k Hk].
    destruct (mentioned_spouses tree k m Hk) as [H1 H2].
    destruct (spouse_of_cases y m) as [-> | ->]; assumption.
  - now apply mentioned_child.
  - apply get_In in Hg. destruct (mentioned_spouses tree _ m Hg) as [H1 H2].
    destruct Hp as [<-|[<-|[]]]; assumption.
Qed.

(** *** Every edge of the dequeued id is followed *)

Lemma visit_In x l st : In x (visited (visit x l st)).
Proof.
  unfold visit. destruct (mem x (visited st)) eqn:E; [now apply mem_In|now left].
Qed.

Lemma visit_keeps z x l st : In z (visited st) -> In z (visited (visit x l st)).
Proof. unfold visit. destruct (mem x (visited st)); [auto|now right]. Qed.

Lemma visit_truthy_keeps z x l st :
  In z (visited st) -> In z (visited (visit_truthy x l st)).
Proof. unfold visit_truthy. destruct (truthy x); [apply visit_keeps|auto]. Qed.

Lemma visit_truthy_In x l st :
  truthy x = true -> In x (visited (visit_truthy x l st)).
Proof. unfold visit_truthy. intros ->. apply visit_In. Qed.

Lemma explore_marriage_keeps z id level st m :
  In z (visited st) -> In z (visited (explore_marriage tree id level st m)).
Proof.
  intros Hz. unfold explore_marriage.
  apply fold_left_preserves with (P := fun s => In z (visited s)).
  - intros s c _. apply visit_keeps.
  - now apply visit_truthy_keeps.
Qed.

Lemma explore_marriage_reaches id level st m :
  (truthy (spouse_of id m) = true ->
   In (spouse_of id m) (visited (explore_marriage tree id level st m))) /\
  (forall c, In c (getChildrenOfMarriage tree (m_id m)) ->
             In c (visited (explore_marriage tree id level st m))).
Proof.
  unfold explore_marriage. split.
  - intros Ht.
    apply fold_left_preserves with (P := fun s => In (spouse_of id m) (visited s)).
    + intros s c _. apply visit_keeps.
    + now apply visit_truthy_In.
  - intros c Hc.
    apply (fold_left_each (fun st childId => visit childId (level + 1) st)
             (fun c s => In c (visited s))); [| |exact Hc].
    + intros s a b. apply visit_keeps.
    + intros s a. apply visit_In.
Qed.

Lemma explore_parents_keeps z id level st :
  In z (visited st) -> In z (visited (explore_parents tree id level st)).
Proof.
  intros Hz. unfold explore_parents.
  destruct (find _ (children tree)) as [l|]; [|exact Hz].
  destruct (get (marriageId l) (marriages tree)) as [m|]; [|exact Hz].
  simpl. now apply visit_truthy_keeps, visit_truthy_keeps.
Qed.

Lemma explore_parents_reaches id level st x d :
  edge id x d -> d = (-1)%Z -> In x (visited (explore_parents tree id level st)).
Proof.
  intros He Hd. destruct He as [| |y l m p Hf Hg Hp Ht]; try discriminate Hd.
  unfold explore_parents. rewrite Hf, Hg. simpl.
  destruct Hp as [<-|[<-|[]]].
  - now apply visit_truthy_keeps, visit_truthy_In.
  - now apply visit_truthy_In.
Qed.

(** The statements of one iteration after the dequeue. *)
Definition explore (id : string) (level : Z) (st : bfs_state) : bfs_state :=
  explore_parents tree id level
    (fold_left (explore_marriage tree id level)
               (filter (involves id) (Object_values (marriages tree))) st).

Lemma bfs_iteration_explore st id level rest :
  queue st = (id, level) :: rest ->
  bfs_iteration tree st
  = explore id level {| queue := rest; generations := generations st;
                        visited := visited st |}.
Proof. intros E. unfold bfs_iteration. now rewrite E. Qed.

Lemma explore_keeps z id level st :
  In z (visited st) -> In z (visited (explore id level st)).
Proof.
  intros Hz. apply explore_parents_keeps.
  apply fold_left_preserves with (P := fun s => In z (visited s)); [|exact Hz].
  intros s m _. apply explore_marriage_keeps.
Qed.

Lemma explore_reaches id level st x d :
  edge id x d -> In x (visited (explore id level st)).
Proof.
  intros He. unfold explore.
  assert (Hm : forall m, In m (Object_values (marriages tree)) -> involves id m = true ->
      (truthy (spouse_of id m) = true ->
       In (spouse_of id m)
          (visited (fold_left (explore_marriage tree id level)
                      (filter (involves id) (Object_values (marriages tree))) st))) /\
      (forall c, In c (getChildrenOfMarriage tree (m_id m)) ->
       In c (visited (fold_left (explore_marriage tree id level)
                        (filter (involves id) (Object_values (marriages tree))) st)))).
  { intros m Hm Hi.
    apply (fold_left_each (explore_marriage tree id level)
             (fun m s =>
                (truthy (spouse_of id m) = true -> In (spouse_of id m) (visited s)) /\
                (forall c, In c (getChildrenOfMarriage tree (m_id m)) ->
                           In c (visited s)))).
    - intros s a b [H1 H2]. split.
      + intros Ht. now apply explore_marriage_keeps, H1.
      + intros c Hc. now apply explore_marriage_keeps, H2.
    - intros s a. apply explore_marriage_reaches.
    - apply filter_In. now split. }
  revert Hm.
  destruct He as [y m Hin Hi Ht|y m l Hin Hi Hl Hml|y l m p Hf Hg Hp Ht]; intros Hm.
  - apply explore_parents_keeps. now apply (proj1 (Hm m Hin Hi)).
  - apply explore_parents_keeps. apply (proj2 (Hm m Hin Hi)).
    apply getChildrenOfMarriage_In. exists l. auto.
  - apply explore_parents_reaches with (d := (-1)%Z); [|reflexivity].
    now apply edge_parent with (l := l) (m := m).
Qed.
End Traversal.

Section TraversalInvariant.
Variable tree : FamilyTree.
Variable startId : string.

(** What the state keeps of the level [ly] at which [y] was queued: the
    entry of [y] in [generations], unless [y] is [__proto__], which gets
    none. *)
Definition recorded (st : bfs_state) (y : string) (ly : Z) : Prop :=
  (y <> proto_name -> get y (generations st) = Some ly) /\
  (Z.abs ly < Z.of_nat (length (visited st)))%Z.

(** What holds of the three variables at every point of the traversal. *)
Record good (st : bfs_state) : Prop := {
  good_keys : forall id,
      In id (keys (generations st)) <-> In id (visited st) /\ id <> proto_name;
  good_start : In startId (visited st);
  good_level : startId <> proto_name -> get startId (generations st) = Some 0%Z;
  good_queue : forall y ly, In (y, ly) (queue st) -> recorded st y ly;
  good_just : forall x l, get x (generations st) = Some l ->
      (x = startId /\ l = 0%Z) \/
      exists y d, edge tree y x d /\
                  (y = proto_name \/ get y (generations st) = Some (l - d)%Z);
  good_bound : forall x l, get x (generations st) = Some l ->
      (Z.abs l < Z.of_nat (length (visited st)))%Z;
  good_size :
      length (visited st) <= S (length (generations st)) /\
      (~ In proto_name (visited st) ->
       length (visited st) = length (generations st));
  good_origin : forall id, In id (visited st) -> id = startId \/ In id (mentioned tree)
}.

Arguments good_keys [st] _ _.
Arguments good_start [st] _.
Arguments good_level [st] _ _.
Arguments good_queue [st] _ _ _ _.
Arguments good_just [st] _ _ _ _.
Arguments good_bound [st] _ _ _ _.
Arguments good_size [st] _.
Arguments good_origin [st] _ _ _.

(** Every visited id other than [skip] is still queued or has had all its
    edges followed. *)
Definition pending (skip : option string) (st : bfs_state) : Prop :=
  forall id, In id (visited st) ->
    skip = Some id \/ (exists l, In (id, l) (queue st)) \/
    (forall x d, edge tree id x d -> In x (visited st)).

Lemma visit_good st y ly d id l :
  good st -> recorded st y ly -> edge tree y id d -> l = (ly + d)%Z ->
  good (visit id l st) /\ recorded (visit id l st) y ly.
Proof.
  intros Hg [Hy Hb] He Hl. unfold visit.
  destruct (mem id (visited st)) eqn:Em; [now split|].
  assert (Hnv : ~ In id (visited st)) by now apply mem_not_In.
  assert (Hfresh : get id (generations st) = None).
  { apply get_none_keys. rewrite (good_keys Hg). tauto. }
  assert (Hold : forall z lz, get z (generations st) = Some lz ->
                              get z (put id l (generations st)) = Some lz).
  { intros z lz Hz. rewrite get_put_neq; [exact Hz|]. intros E. congruence. }
  pose proof (edge_offset _ _ _ _ He) as Hd.
  split.
  2:{ split; cbn [generations visited length]; [intros Hne; now apply Hold, Hy|lia]. }
  constructor; cbn [queue generations visited].
  - intros z. rewrite In_keys_put, (good_keys Hg). simpl. split.
    + intros [[Hz Hp]|[E Hp]]; [tauto|]. subst z. tauto.
    + intros [[E|Hz] Hp]; [right; subst z; tauto|tauto].
  - right. apply (good_start Hg).
  - intros Hne. apply Hold, (good_level Hg), Hne.
  - intros z lz Hin. apply in_app_or in Hin. destruct Hin as [Hin|[E|[]]].
    + destruct (good_queue Hg z lz Hin) as [Hz Hzb].
      split; cbn [generations visited length]; [intros Hne; now apply Hold, Hz|lia].
    + inversion E; subst z lz.
      split; cbn [generations visited length]; [intros Hne; now apply get_put_eq|lia].
  - intros x lx Hx. apply get_put_inv in Hx. destruct Hx as [[Ex El]|Hx].
    + subst x lx. right. exists y, d. split; [exact He|].
      destruct (String.eqb_spec y proto_name) as [Hp|Hp]; [now left|right].
      replace (l - d)%Z with ly by lia. now apply Hold, Hy.
    + destruct (good_just Hg x lx Hx) as [H|[z [dz [Hez [Hz|Hz]]]]]; [now left| |].
      * right. exists z, dz. auto.
      * right. exists z, dz. split; [exact Hez|right; now apply Hold].
  - intros x lx Hx. cbn [length]. apply get_put_inv in Hx.
    destruct Hx as [[Ex El]|Hx].
    + subst x lx. lia.
    + pose proof (good_bound Hg x lx Hx). lia.
  - destruct (good_size Hg) as [Hs1 Hs2]. cbn [length].
    destruct (put_cases id l (generations st)) as [[Hp ->]|[Hp ->]].
    + subst id. rewrite (Hs2 Hnv). split; [lia|].
      intros Hn. exfalso. apply Hn. now left.
    + rewrite (set_fresh id l (generations st) Hfresh), length_app. cbn [length].
      split; [lia|]. intros Hn. rewrite Hs2; [lia|].
      intros Hin. apply Hn. now right.
  - intros z [E|Hz]; [|exact (good_origin Hg z Hz)].
    subst z. right. exact (edge_mentioned _ _ _ _ He).
Qed.

Lemma visit_pending skip id l st : pending skip st -> pending skip (visit id l st).
Proof.
  intros Hp z Hz. unfold visit in *.
  destruct (mem id (visited st)) eqn:Em; [now apply Hp|].
  cbn [queue visited] in *. destruct Hz as [<-|Hz].
  - right. left. exists l. apply in_or_app. right. now left.
  - destruct (Hp z Hz) as [H|[[lz H]|H]]; [now left| |].
    + right. left. exists lz. apply in_or_app. now left.
    + right. right. intros x d He. right. exact (H x d He).
Qed.

(** The invariant of the steps of one iteration, for the dequeued id [y]. *)
Definition exploring (y : string) (ly : Z) (st : bfs_state) : Prop :=
  good st /\ recorded st y ly /\ pending (Some y) st.

Lemma visit_exploring y ly d id l st :
  exploring y ly st -> edge tree y id d -> l = (ly + d)%Z ->
  exploring y ly (visit id l st).
Proof.
  intros [Hg [Hy Hp]] He Hl.
  destruct (visit_good st y ly d id l Hg Hy He Hl) as [Hg' Hy'].
  split; [exact Hg'|split; [exact Hy'|now apply visit_pending]].
Qed.

Lemma explore_exploring y ly st : exploring y ly st -> exploring y ly (explore tree y ly st).
Proof.
  intros Hx. unfold explore, explore_parents.
  assert (Hm : exploring y ly
                 (fold_left (explore_marriage tree y ly)
                    (filter (involves y) (Object_values (marriages tree))) st)).
  { apply fold_left_preserves with (P := exploring y ly); [|exact Hx].
    intros s m Hin Hs. apply filter_In in Hin. destruct Hin as [Hin Hi].
    unfold explore_marriage.
    apply fold_left_preserves with (P := exploring y ly).
    - intros s' c Hc Hs'. apply getChildrenOfMarriage_In in Hc.
      destruct Hc as [l [Hl [Hml <-]]].
      apply visit_exploring with (d := 1%Z); [exact Hs'| |reflexivity].
      now apply edge_child with (m := m).
    - unfold visit_truthy. destruct (truthy (spouse_of y m)) eqn:Et; [|exact Hs].
      apply visit_exploring with (d := 0%Z); [exact Hs| |lia].
      now apply edge_spouse. }
  destruct (find _ (children tree)) as [l|] eqn:Ef; [|exact Hm].
  destruct (get (marriageId l) (marriages tree)) as [m|] eqn:Eg; [|exact Hm].
  assert (Hp : forall p s, In p [spouse1Id m; spouse2Id m] -> exploring y ly s ->
                           exploring y ly (visit_truthy p (ly - 1) s)).
  { intros p s Hin Hs. unfold visit_truthy. destruct (truthy p) eqn:Et; [|exact Hs].
    apply visit_exploring with (d := (-1)%Z); [exact Hs| |lia].
    now apply edge_parent with (l := l) (m := m). }
  simpl. apply Hp; [simpl; auto|]. apply Hp; [simpl; auto|exact Hm].
Qed.

Lemma bfs_iteration_good st :
  good st /\ pending None st -> good (bfs_iteration tree st) /\ pending None (bfs_iteration tree st).
Proof.
  intros [Hg Hp]. destruct (queue st) as [|[y ly] rest] eqn:Eq.
  - unfold bfs_iteration. rewrite Eq. now split.
  - rewrite (bfs_iteration_explore tree st _ _ _ Eq).
    set (st0 := {| queue := rest; generations := generations st; visited := visited st |}).
    assert (Hy : recorded st y ly)
      by (apply (good_queue Hg); rewrite Eq; now left).
    assert (H0 : exploring y ly st0).
    { split; [|split; [exact Hy|]].
      - destruct Hg as [H1 H2 H3 H4 H5 H6 H7 H8].
        constructor; cbn [queue generations visited st0]; auto.
        intros z lz Hin. apply H4. rewrite Eq. now right.
      - intros z Hz. destruct (Hp z Hz) as [H|[[lz H]|H]]; [discriminate H| |].
        + rewrite Eq in H. destruct H as [E|H].
          * inversion E; subst. now left.
          * right. left. now exists lz.
        + right. right. exact H. }
    destruct (explore_exploring y ly st0 H0) as [Hg' [_ Hp']].
    split; [exact Hg'|]. intros z Hz.
    destruct (Hp' z Hz) as [E|[H|H]]; [|now (right; left)|now (right; right)].
    inversion E; subst z. right. right. intros x d He.
    now apply explore_reaches with (d := d).
Qed.

Lemma bfs_loop_good fuel : forall st,
  good st /\ pending None st ->
  good (bfs_loop tree fuel st) /\ pending None (bfs_loop tree fuel st).
Proof.
  induction fuel as [|fuel IH]; intros st H; simpl; [exact H|].
  destruct (queue st) eqn:Eq; [exact H|]. apply IH. now apply bfs_iteration_good.
Qed.

Lemma bfs_init_good : good (bfs_init startId) /\ pending None (bfs_init startId).
Proof.
  split.
  - constructor; cbn [bfs_init queue generations visited].
    + intros id. rewrite In_keys_put. simpl. split.
      * intros [[]|[E Hp]]. subst id. tauto.
      * intros [[E|[]] Hp]. subst id. tauto.
    + now left.
    + intros Hne. now apply get_put_eq.
    + intros y ly [E|[]]. inversion E; subst y ly.
      split; cbn [bfs_init generations visited length];
        [intros Hne; now apply get_put_eq|lia].
    + intros x l Hx. apply get_put_inv in Hx.
      destruct Hx as [[Ex El]|Hx]; [now left|discriminate Hx].
    + intros x l Hx. apply get_put_inv in Hx.
      destruct Hx as [[Ex El]|Hx]; [subst l; simpl; lia|discriminate Hx].
    + cbn [length].
      destruct (put_cases startId 0%Z (@nil (string * Z))) as [[Hp ->]|[Hp ->]].
      * split; [simpl; lia|]. intros Hn. exfalso. apply Hn. now left.
      * simpl. split; [lia|reflexivity].
    + intros id [E|[]]. now left.
  - intros id [<-|[]]. right. left. exists 0%Z. now left.
Qed.

(** The final state of the loop of [computeGenerations]. *)
Definition bfs_final : bfs_state := bfs_loop tree (bfs_fuel tree) (bfs_init startId).

Lemma bfs_final_good : good bfs_final.
Proof. apply bfs_loop_good, bfs_init_good. Qed.

(** The visited ids are closed under the edges. *)
Lemma bfs_final_closed id x d :
  In id (visited bfs_final) -> edge tree id x d -> In x (visited bfs_final).
Proof.
  intros Hin He.
  destruct (bfs_loop_good (bfs_fuel tree) _ bfs_init_good) as [_ Hp].
  destruct (Hp id Hin) as [H|[[l H]|H]]; [discriminate H| |now apply (H x d)].
  unfold bfs_final in H. fold bfs_final in H.
  pose proof (bfs_fuel_enough tree startId) as Hq. fold bfs_final in Hq.
  rewrite Hq in H. destruct H.
Qed.

(** They are the ids the traversal can assign. *)
Lemma bfs_final_assigned x l : assigned tree startId x l -> In x (visited bfs_final).
Proof.
  intros Ha. induction Ha as
    [|y level m Ha IH Hm Hi Ht|y level m c Ha IH Hm Hi Hl Hml
     |y level c m p Ha IH Hf Hg Hp Ht].
  - apply (good_start bfs_final_good).
  - apply (bfs_final_closed y _ 0%Z IH). now apply edge_spouse.
  - apply (bfs_final_closed y _ 1%Z IH). now apply edge_child with (m := m).
  - apply (bfs_final_closed y _ (-1)%Z IH). now apply edge_parent with (l := c) (m := m).
Qed.

Lemma computeGenerations_final :
  truthy_at startId (persons tree) = true ->
  computeGenerations tree startId = generations bfs_final.
Proof. intros Hh. unfold computeGenerations. now rewrite Hh. Qed.
End TraversalInvariant.

Arguments good_keys [tree startId st] _ _.
Arguments good_start [tree startId st] _.
Arguments good_level [tree startId st] _ _.
Arguments good_queue [tree startId st] _ _ _ _.
Arguments good_just [tree startId st] _ _ _ _.
Arguments good_bound [tree startId st] _ _ _ _.
Arguments good_size [tree startId st] _.
Arguments good_origin [tree startId st] _ _ _.

Lemma computeGenerations_cases tree startId :
  computeGenerations tree startId = [] \/
  (truthy_at startId (persons tree) = true /\
   computeGenerations tree startId = generations (bfs_final tree startId)).
Proof.
  destruct (truthy_at startId (persons tree)) eqn:Hh.
  - right. split; [reflexivity|now apply computeGenerations_final].
  - left. unfold computeGenerations. now rewrite Hh.
Qed.

(** X11.  A start id that the guard lets through gets generation 0, unless
    it is [__proto__]: that name never gets an entry. *)
Theorem computeGenerations_start (tree : FamilyTree) (startId : string) :
  truthy_at startId (persons tree) = true ->
  (startId <> proto_name ->
   get startId (computeGenerations tree startId) = Some 0%Z) /\
  (forall s, get proto_name (computeGenerations tree s) = None).
Proof.
  intros Hh. split; [|intros s; apply computeGenerations_plain].
  intros Hne. rewrite (computeGenerations_final tree startId Hh).
  apply (good_level (bfs_final_good tree startId) Hne).
Qed.

Lemma computeGenerations_start_witness :
  truthy_at "C" (persons tree_RSCDE) = true /\
  "C" <> proto_name /\
  get "C" (computeGenerations tree_RSCDE "C") = Some 0%Z.
Proof.
  assert (Hne : "C" <> proto_name) by discriminate.
  split; [reflexivity|]. split; [exact Hne|].
  exact (proj1 (computeGenerations_start tree_RSCDE "C" eq_refl) Hne).
Defined.



(** The keys of the result are closed under the edges, [__proto__] apart. *)
Lemma computeGenerations_edge_closed tree startId id x d :
  In id (keys (computeGenerations tree startId)) -> edge tree id x d ->
  x <> proto_name ->
  In x (keys (computeGenerations tree startId)).
Proof.
  destruct (computeGenerations_cases tree startId) as [->|[_ ->]]; [intros []|].
  intros Hid He Hx. pose proof (bfs_final_good tree startId) as Hg.
  apply (good_keys Hg). split; [|exact Hx].
  apply (bfs_final_closed tree startId id x d); [|exact He].
  now apply (good_keys Hg).
Qed.

(** X12.  The result is closed under the edges the traversal follows, as
    far as entries can be written: when an id has a generation, so have the
    non-empty spouse ids of its marriages, the children of its marriages,
    and the non-empty spouse ids of the marriage its first child link names,
    all except [__proto__].  Hence, from a start the guard lets through, the
    ids with a generation are exactly the assignable ones other than
    [__proto__]. *)
Theorem computeGenerations_closed (tree : FamilyTree) (startId id : string) :
  In id (keys (computeGenerations tree startId)) ->
  (forall m, In m (Object_values (marriages tree)) -> involves id m = true ->
     (truthy (spouse_of id m) = true -> spouse_of id m <> proto_name ->
      In (spouse_of id m) (keys (computeGenerations tree startId))) /\
     (forall c, In c (getChildrenOfMarriage tree (m_id m)) -> c <> proto_name ->
      In c (keys (computeGenerations tree startId)))) /\
  (forall p, In p (getParentsOfPerson tree id) -> p <> proto_name ->
     In p (keys (computeGenerations tree startId))) /\
  (truthy_at startId (persons tree) = true ->
   forall x, In x (keys (computeGenerations tree startId))
             <-> x <> proto_name /\ exists l, assigned tree startId x l).
Proof.
  intros Hid. split; [|split].
  - intros m Hm Hi. split.
    + intros Ht. apply (computeGenerations_edge_closed tree startId id _ 0%Z Hid).
      now apply edge_spouse.
    + intros c Hc. apply getChildrenOfMarriage_In in Hc.
      destruct Hc as [l [Hl [Hml <-]]].
      apply (computeGenerations_edge_closed tree startId id _ 1%Z Hid).
      now apply edge_child with (m := m).
  - intros p Hp. unfold getParentsOfPerson in Hp.
    destruct (find _ (children tree)) as [l|] eqn:Ef; [|destruct Hp].
    destruct (get (marriageId l) (marriages tree)) as [m|] eqn:Eg; [|destruct Hp].
    apply filter_In in Hp. destruct Hp as [Hp Ht].
    apply (computeGenerations_edge_closed tree startId id _ (-1)%Z Hid).
    now apply edge_parent with (l := l) (m := m).
  - intros Hh x. split.
    + intros Hx. split.
      * intros E. subst x. apply get_some_keys in Hx.
        now rewrite computeGenerations_plain in Hx.
      * apply get_some_keys in Hx.
        destruct (get x (computeGenerations tree startId)) as [l|] eqn:E; [|congruence].
        exists l. now apply computeGenerations_assigned.
    + intros [Hx [l Ha]]. rewrite (computeGenerations_final tree startId Hh).
      apply (good_keys (bfs_final_good tree startId)). split; [|exact Hx].
      exact (bfs_final_assigned tree startId x l Ha).
Qed.

Lemma computeGenerations_closed_witness :
  In "C" (keys (computeGenerations tree_RSCDE "E")) /\
  In "R" (keys (computeGenerations tree_RSCDE "E")).
Proof.
  assert (H : In "C" (keys (computeGenerations tree_RSCDE "E")))
    by (vm_compute; tauto).
  split; [exact H|].
  apply (proj1 (proj2 (computeGenerations_closed tree_RSCDE "E" "C" H)));
    [vm_compute; tauto|discriminate].
Defined.

(** X13.  Every entry other than the start's is one step away from another
    id the traversal went through: it has the level of a spouse, one more
    than the level of a parent, or one less than the level of the child
    whose first link names the marriage.  The other id has an entry with
    that level, unless it is [__proto__], whose level is not kept. *)
Theorem computeGenerations_justified (tree : FamilyTree) (startId x : string) (l : Z) :
  get x (computeGenerations tree startId) = Some l ->
  (x = startId /\ l = 0%Z) \/
  exists y d,
    (y = proto_name \/ get y (computeGenerations tree startId) = Some (l - d)%Z) /\
    ((exists m, In m (Object_values (marriages tree)) /\ involves y m = true /\
                x = spouse_of y m /\ truthy x = true /\ d = 0%Z) \/
     (exists m, In m (Object_values (marriages tree)) /\ involves y m = true /\
                In x (getChildrenOfMarriage tree (m_id m)) /\ d = 1%Z) \/
     (In x (getParentsOfPerson tree y) /\ d = (-1)%Z)).
Proof.
  destruct (computeGenerations_cases tree startId) as [->|[_ ->]]; [discriminate|].
  intros Hx.
  destruct (good_just (bfs_final_good tree startId) x l Hx)
    as [H|[y [d [He Hy]]]]; [now left|].
  right. exists y, d. split; [exact Hy|]. clear Hy Hx.
  destruct He as [y m Hm Hi Ht|y m c Hm Hi Hc Hml|y c m p Hf Hg Hp Ht].
  - left. exists m. repeat split; auto.
  - right. left. exists m. repeat split; auto.
    apply getChildrenOfMarriage_In. now exists c.
  - right. right. split; [|reflexivity]. unfold getParentsOfPerson. rewrite Hf, Hg.
    apply filter_In. now split.
Qed.

Lemma computeGenerations_justified_witness :
  get "E" (computeGenerations tree_RSCDE "R") = Some 2%Z /\
  (("E" = "R" /\ 2 = 0)%Z \/
   exists y d,
     (y = proto_name \/ get y (computeGenerations tree_RSCDE "R") = Some (2 - d)%Z) /\
     ((exists m, In m (Object_values (marriages tree_RSCDE)) /\ involves y m = true /\
                 "E" = spouse_of y m /\ truthy "E" = true /\ d = 0%Z) \/
      (exists m, In m (Object_values (marriages tree_RSCDE)) /\ involves y m = true /\
                 In "E" (getChildrenOfMarriage tree_RSCDE (m_id m)) /\ d = 1%Z) \/
      (In "E" (getParentsOfPerson tree_RSCDE y) /\ d = (-1)%Z))).
Proof.
  split; [reflexivity|].
  apply (computeGenerations_justified tree_RSCDE "R" "E" 2%Z). reflexivity.
Defined.

(** X14.  Generation numbers stay small: each is, in absolute value, at most
    the number of entries of the result, and below it when neither the start
    nor any marriage or child link names [__proto__]. *)
Theorem computeGenerations_bound (tree : FamilyTree) (startId x : string) (l : Z) :
  get x (computeGenerations tree startId) = Some l ->
  (Z.abs l <= Z.of_nat (length (computeGenerations tree startId)))%Z /\
  (startId <> proto_name -> ~ In proto_name (mentioned tree) ->
   (Z.abs l < Z.of_nat (length (computeGenerations tree startId)))%Z).
Proof.
  destruct (computeGenerations_cases tree startId) as [->|[_ ->]]; [discriminate|].
  intros Hx. pose proof (bfs_final_good tree startId) as Hg.
  pose proof (good_bound Hg x l Hx) as Hb.
  destruct (good_size Hg) as [Hs1 Hs2]. split; [lia|].
  intros Hs Hm. rewrite <- Hs2; [exact Hb|].
  intros Hin. destruct (good_origin Hg _ Hin) as [E|E]; [congruence|tauto].
Qed.

Lemma computeGenerations_bound_witness :
  get "E" (computeGenerations tree_RSCDE "R") = Some 2%Z /\
  (Z.abs 2 <= Z.of_nat (length (computeGenerations tree_RSCDE "R")))%Z.
Proof.
  split; [reflexivity|].
  apply (computeGenerations_bound tree_RSCDE "R" "E" 2%Z). reflexivity.
Defined.

(** ** The traversal on names inherited from [Object.prototype] *)

(** A start named [__proto__] passes the guard on the tree without
    persons; the loop runs once and the result stays empty. *)
Example computeGenerations_proto_start :
  computeGenerations emptyTree proto_name = [] /\ iterations emptyTree proto_name = 1.
Proof. split; reflexivity. Qed.

(** A spouse named [__proto__] is visited and gets no entry. *)
Example computeGenerations_proto_spouse :
  computeGenerations
    {| persons := [("A", mkPerson "A" male)];
       marriages := [("m1", mkMarriage "m1" "A" proto_name)];
       children := [] |} "A"
  = [("A", 0%Z)].
Proof. reflexivity. Qed.

(** A is the parent of [__proto__], which is the parent of B: B gets level
    2, one more than the level of [__proto__], which is not kept; the level
    equals the number of entries. *)
Example computeGenerations_through_proto :
  computeGenerations
    {| persons := [("A", mkPerson "A" male)];
       marriages := [("m1", mkMarriage "m1" "A" ""); ("m2", mkMarriage "m2" proto_name "")];
       children := [mkLink "m1" proto_name; mkLink "m2" "B"] |} "A"
  = [("A", 0%Z); ("B", 2%Z)].
Proof. reflexivity. Qed.

(** The child F added to the marriage m2 of [__proto__] and X: X is at level
    0, and F is given the level after that of [__proto__]. *)
Example submitChild_through_proto :
  computeGenerations
    (submitChild
       {| persons := [("A", mkPerson "A" male); ("X", mkPerson "X" female);
                      (proto_name, mkPerson proto_name male)];
          marriages := [("m1", mkMarriage "m1" "A" ""); ("m3", mkMarriage "m3" "A" "X");
                        ("m2", mkMarriage "m2" proto_name "X")];
          children := [mkLink "m1" proto_name] |}
       "m2" "F" "Fay" female) "A"
  = [("A", 0%Z); ("X", 0%Z); ("F", 2%Z)].
Proof. reflexivity. Qed.

(** A spouse added under the id [__proto__] gets no generation, whatever
    the partner has. *)
Example submitSpouse_proto :
  get "E" (computeGenerations
             (submitSpouse tree_RSCDE "E" proto_name "m3" "Frank" male) "R") = Some 2%Z /\
  get proto_name (computeGenerations
                    (submitSpouse tree_RSCDE "E" proto_name "m3" "Frank" male) "R") = None.
Proof. split; reflexivity. Qed.

(** * Further properties of the layout *)

Definition emptyLayout : Layout :=
  {| personCoords := []; marriageCoords := []; gens := [] |}.

Lemma place_marriage_nil mc m :
  inherited (spouse1Id m) && inherited (spouse2Id m) = false ->
  place_marriage [] mc m = mc.
Proof.
  unfold place_marriage, placement. simpl.
  destruct (inherited (spouse1Id m)), (inherited (spouse2Id m)); simpl;
    intros E; try discriminate E; reflexivity.
Qed.

Lemma fold_place_marriage_nil ms : forall mc,
  (forall m, In m ms -> inherited (spouse1Id m) && inherited (spouse2Id m) = false) ->
  fold_left (place_marriage []) ms mc = mc.
Proof.
  induction ms as [|m ms IH]; intros mc Hms; simpl; [reflexivity|].
  rewrite place_marriage_nil by (apply Hms; now left).
  apply IH. intros m' Hin. apply Hms. now right.
Qed.

Lemma layout_at_absent tree startId :
  truthy_at startId (persons tree) = false ->
  gens (layout_at tree startId) = [] /\
  personCoords (layout_at tree startId) = [] /\
  ((forall m, In m (Object_values (marriages tree)) ->
      inherited (spouse1Id m) && inherited (spouse2Id m) = false) ->
   layout_at tree startId = emptyLayout).
Proof.
  intros Hh.
  assert (Hg : computeGenerations tree startId = [])
    by (unfold computeGenerations; now rewrite Hh).
  unfold layout_at, rows. rewrite Hg. simpl.
  split; [reflexivity|split; [reflexivity|]]. intros Hms.
  now rewrite fold_place_marriage_nil.
Qed.

(** X15.  With a start that the guard of [computeGenerations] turns down,
    the layout has no generation and no person coordinate, and it is empty
    altogether unless some marriage joins two names inherited from
    [Object.prototype]; so is the layout of a tree without persons, with
    nothing focused or with a focus that is no inherited name. *)
Theorem layout_nothing_to_place (tree : FamilyTree) :
  (forall startId, truthy_at startId (persons tree) = false ->
     gens (layout_at tree startId) = [] /\
     personCoords (layout_at tree startId) = [] /\
     ((forall m, In m (Object_values (marriages tree)) ->
         inherited (spouse1Id m) && inherited (spouse2Id m) = false) ->
      layout_at tree startId = emptyLayout)) /\
  (persons tree = [] ->
   (forall m, In m (Object_values (marriages tree)) ->
      inherited (spouse1Id m) && inherited (spouse2Id m) = false) ->
   layout tree = emptyLayout /\
   forall focusId,
     match focusId with Some id => inherited id = false | None => True end ->
     layout_focus tree focusId = emptyLayout).
Proof.
  split; [intros s; apply layout_at_absent|].
  intros Hp Hms.
  assert (Hall : forall s, inherited s = false -> layout_at tree s = emptyLayout).
  { intros s Hs. apply layout_at_absent; [|exact Hms].
    unfold truthy_at. now rewrite Hp. }
  assert (Hroot : rootId tree = "undefined") by (unfold rootId; now rewrite Hp).
  split; [unfold layout; rewrite Hroot; now apply Hall|].
  intros f Hf. unfold layout_focus. rewrite Hroot.
  destruct f as [id|]; [|now apply Hall].
  destruct (truthy id); now apply Hall.
Qed.

Lemma layout_nothing_to_place_witness :
  persons (addMarriage emptyTree (mkMarriage "m1" "A" "B")) = [] /\
  (forall m, In m (Object_values (marriages (addMarriage emptyTree (mkMarriage "m1" "A" "B")))) ->
             inherited (spouse1Id m) && inherited (spouse2Id m) = false) /\
  layout (addMarriage emptyTree (mkMarriage "m1" "A" "B")) = emptyLayout.
Proof.
  assert (Hms : forall m,
             In m (Object_values (marriages (addMarriage emptyTree (mkMarriage "m1" "A" "B")))) ->
             inherited (spouse1Id m) && inherited (spouse2Id m) = false).
  { intros m [<-|[]]. reflexivity. }
  split; [reflexivity|]. split; [exact Hms|].
  exact (proj1 (proj2 (layout_nothing_to_place
                         (addMarriage emptyTree (mkMarriage "m1" "A" "B"))) eq_refl Hms)).
Defined.

(** X16.  A start that the guard lets through is placed on the row [y = 0],
    unless it is [__proto__]. *)
Theorem layout_start_row (tree : FamilyTree) (startId : string) :
  truthy_at startId (persons tree) = true -> startId <> proto_name ->
  exists p, get startId (personCoords (layout_at tree startId)) = Some p /\ y p = 0%Z.
Proof.
  intros Hh Hne.
  assert (Hg : get startId (computeGenerations tree startId) = Some 0%Z).
  { rewrite (computeGenerations_final tree startId Hh).
    apply (good_level (bfs_final_good tree startId) Hne). }
  assert (Hk : In startId (keys (personCoords (layout_at tree startId)))).
  { apply personCoords_keys, get_some_keys. congruence. }
  apply get_some_keys in Hk.
  destruct (get startId (personCoords (layout_at tree startId))) as [p|] eqn:Ep;
    [|congruence].
  exists p. split; [reflexivity|].
  destruct (personCoords_shape tree startId _ Ep) as [gen [ids [idx [Hrow [Hn ->]]]]].
  rewrite (rows_labelled tree startId gen ids startId Hrow (nth_error_In _ _ Hn)) in Hg.
  inversion Hg. reflexivity.
Qed.

Lemma layout_start_row_witness :
  truthy_at "C" (persons tree_RSCDE) = true /\ "C" <> proto_name /\
  exists p, get "C" (personCoords (layout_at tree_RSCDE "C")) = Some p /\ y p = 0%Z.
Proof.
  assert (Hne : "C" <> proto_name) by discriminate.
  split; [reflexivity|]. split; [exact Hne|].
  exact (layout_start_row tree_RSCDE "C" eq_refl Hne).
Defined.

(** ** No two persons share a position *)

Section BucketKeys.
Context {K V : Type} `{PropertyKey K}.

Lemma NoDup_keys_set_key (k : K) (v : V) (o : JsRecord K V) :
  NoDup (keys o) -> NoDup (keys (set k v o)).
Proof.
  intros Hnd. rewrite keys_set. destruct (get k o) eqn:E; [exact Hnd|].
  apply (proj1 (get_none_keys k o)) in E.
  apply (Permutation_NoDup (l := k :: keys o));
    [apply Permutation_cons_append|now constructor].
Qed.

Lemma NoDup_keys_unique (k : K) (v v' : V) (o : list (K * V)) :
  NoDup (map fst o) -> In (k, v) o -> In (k, v') o -> v = v'.
Proof.
  induction o as [|[k0 v0] o IH]; simpl; [tauto|].
  intros Hnd H1 H2. inversion Hnd as [|? ? Hnot Hnd']; subst.
  assert (Hk : forall w, In (k0, w) o -> False).
  { intros w Hw. apply Hnot. apply in_map_iff. now exists (k0, w). }
  destruct H1 as [E1|H1], H2 as [E2|H2].
  - congruence.
  - inversion E1; subst. destruct (Hk _ H2).
  - inversion E2; subst. destruct (Hk _ H1).
  - now apply IH.
Qed.
End BucketKeys.

Lemma push_bucket_keys gen id b :
  NoDup (keys b) -> NoDup (keys (push_bucket gen id b)).
Proof.
  intros Hnd. unfold push_bucket.
  destruct (get gen b); now apply NoDup_keys_set_key.
Qed.

Lemma group_by_generation_keys tree g :
  NoDup (keys (peopleByGen (group_by_generation tree g))).
Proof.
  unfold group_by_generation.
  apply fold_left_preserves with (P := fun s => NoDup (keys (peopleByGen s)));
    [|constructor].
  intros s id _ Hs. unfold place_person.
  destruct (mem id (addedToLayout s)); [exact Hs|].
  destruct (get id g) as [gen|]; [|exact Hs].
  apply fold_left_preserves with (P := fun s => NoDup (keys (peopleByGen s))).
  - intros s' m _ Hs'. unfold place_spouse. destruct (_ && _ && _); [|exact Hs'].
    now apply push_bucket_keys.
  - now apply push_bucket_keys.
Qed.

Lemma rows_keys tree startId : NoDup (map fst (rows tree startId)).
Proof.
  unfold rows. eapply Permutation_NoDup;
    [symmetry; apply Permutation_map, Object_entries_perm|].
  apply group_by_generation_keys.
Qed.

Lemma nth_error_NoDup_eq (l : list string) i j a :
  NoDup l -> nth_error l i = Some a -> nth_error l j = Some a -> i = j.
Proof.
  intros Hnd Hi Hj. apply (proj1 (NoDup_nth_error l) Hnd).
  - apply nth_error_Some. congruence.
  - congruence.
Qed.

(** X17.  No two persons are placed at the same point: ids with equal
    coordinates are equal. *)
Theorem layout_positions_distinct (tree : FamilyTree) (startId id id' : string)
    (p : Point) :
  get id (personCoords (layout_at tree startId)) = Some p ->
  get id' (personCoords (layout_at tree startId)) = Some p ->
  id = id'.
Proof.
  intros H1 H2.
  destruct (personCoords_shape tree startId _ H1) as [g1 [ids1 [i1 [Hr1 [Hn1 E1]]]]].
  destruct (personCoords_shape tree startId _ H2) as [g2 [ids2 [i2 [Hr2 [Hn2 E2]]]]].
  rewrite E1 in E2. inversion E2 as [[Hx Hy]].
  assert (Hg : g1 = g2) by (unfold VERTICAL_SPACING in Hy; lia). subst g2.
  assert (Hids : ids1 = ids2)
    by (exact (NoDup_keys_unique g1 ids1 ids2 _ (rows_keys tree startId) Hr1 Hr2)).
  subst ids2.
  assert (Hi : i1 = i2).
  { unfold row_x, HORIZONTAL_SPACING in Hx. cbv zeta in Hx. lia. }
  subst i2. congruence.
Qed.

Lemma layout_positions_distinct_witness :
  get "R" (personCoords (layout tree_RSCDE)) = Some {| x := -150; y := 0 |} /\
  (get "R" (personCoords (layout tree_RSCDE)) = Some {| x := -150; y := 0 |} ->
   "R" = "R").
Proof.
  split; [reflexivity|]. intros H.
  exact (layout_positions_distinct tree_RSCDE "R" "R" "R" _ H H).
Defined.

(** ** Marriage coordinates without assumptions on the ids *)

Definition midpoint (p1 p2 : Point) : Point :=
  {| x := (x p1 + x p2) / 2; y := (y p1 + y p2) / 2 |}.

(** What [between] makes of two reads of [personCoords]. *)
Lemma between_placement pc m c :
  between (placement pc (spouse1Id m)) (placement pc (spouse2Id m)) = Some c ->
  (exists p1 p2, get (spouse1Id m) pc = Some p1 /\ get (spouse2Id m) pc = Some p2 /\
                 c = Numbers (midpoint p1 p2)) \/
  (c = NotNumbers /\ (get (spouse1Id m) pc = None \/ get (spouse2Id m) pc = None)).
Proof.
  unfold placement.
  destruct (get (spouse1Id m) pc) as [p1|], (get (spouse2Id m) pc) as [p2|];
    destruct (inherited (spouse1Id m)), (inherited (spouse2Id m)); simpl;
    intros E; inversion E; subst c; try (right; split; [reflexivity|auto]; fail);
    left; exists p1, p2; auto.
Qed.

Lemma place_marriage_cases pc mc m :
  (exists c, between (placement pc (spouse1Id m)) (placement pc (spouse2Id m)) = Some c /\
             place_marriage pc mc m = put (m_id m) c mc) \/
  (both_placed pc m = false /\ place_marriage pc mc m = mc).
Proof.
  unfold place_marriage.
  destruct (between _ _) as [c|] eqn:E; [left; now exists c|right].
  split; [|reflexivity]. destruct (both_placed pc m) eqn:Eb; [|reflexivity].
  apply between_both_placed in Eb. congruence.
Qed.

Lemma fold_place_marriage_some pc k c ms : forall mc,
  get k (fold_left (place_marriage pc) ms mc) = Some c ->
  get k mc = Some c \/
  exists m, In m ms /\ m_id m = k /\
            between (placement pc (spouse1Id m)) (placement pc (spouse2Id m)) = Some c.
Proof.
  induction ms as [|a ms IH]; intros mc Hg; simpl in *; [now left|].
  destruct (IH _ Hg) as [Ha|[m [Hin Hrest]]].
  - destruct (place_marriage_cases pc mc a) as [[c' [Ec Ep]]|[_ Ep]];
      rewrite Ep in Ha; [|now left].
    apply get_put_inv in Ha. destruct Ha as [[Ek Ev]|Ha]; [|now left].
    subst k c'. right. exists a. auto.
  - right. exists m. split; [now right|exact Hrest].
Qed.

Lemma get_put_keeps {V} k k' (v : V) o : get k o <> None -> get k (put k' v o) <> None.
Proof.
  intros Hg. destruct (put_cases k' v o) as [[_ ->]|[_ ->]]; [exact Hg|].
  destruct (String.eqb_spec k k') as [->|Hne].
  - rewrite get_set_eq. discriminate.
  - now rewrite get_set_neq.
Qed.

Lemma fold_place_marriage_keeps pc k ms : forall mc,
  get k mc <> None -> get k (fold_left (place_marriage pc) ms mc) <> None.
Proof.
  induction ms as [|a ms IH]; intros mc Hg; simpl; [exact Hg|].
  apply IH.
  destruct (place_marriage_cases pc mc a) as [[c [_ ->]]|[_ ->]]; [|exact Hg].
  now apply get_put_keeps.
Qed.

Lemma fold_place_marriage_placed pc m ms : forall mc,
  In m ms -> m_id m <> proto_name -> both_placed pc m = true ->
  get (m_id m) (fold_left (place_marriage pc) ms mc) <> None.
Proof.
  induction ms as [|a ms IH]; intros mc Hin Hp Hb; simpl; [destruct Hin|].
  destruct Hin as [->|Hin]; [|now apply IH].
  apply fold_place_marriage_keeps.
  destruct (place_marriage_cases pc mc m) as [[c [_ ->]]|[E _]]; [|congruence].
  rewrite get_put_eq by exact Hp. discriminate.
Qed.

Lemma fold_place_marriage_plain pc ms : forall mc,
  get proto_name mc = None ->
  get proto_name (fold_left (place_marriage pc) ms mc) = None.
Proof.
  induction ms as [|a ms IH]; intros mc Hg; simpl; [exact Hg|].
  apply IH. destruct (place_marriage_cases pc mc a) as [[c [_ ->]]|[_ ->]];
    [now apply get_put_proto|exact Hg].
Qed.

(** X18.  Whatever the marriage ids: an id has a marriage coordinate exactly
    when it is not [__proto__] and some marriage with that id has two spouse
    ids that [personCoords] reads as truthy, placed or inherited from
    [Object.prototype].  Every marriage coordinate is the midpoint of the two
    spouses of such a marriage when both are placed, and two [NaN]
    otherwise. *)
Theorem layout_marriage_entries (tree : FamilyTree) (startId k : string) :
  (get k (marriageCoords (layout_at tree startId)) <> None <->
   k <> proto_name /\
   exists m, In m (Object_values (marriages tree)) /\ m_id m = k /\
     truthy_at (spouse1Id m) (personCoords (layout_at tree startId)) = true /\
     truthy_at (spouse2Id m) (personCoords (layout_at tree startId)) = true) /\
  (forall c, get k (marriageCoords (layout_at tree startId)) = Some c ->
   exists m, In m (Object_values (marriages tree)) /\ m_id m = k /\
     ((exists p1 p2,
         get (spouse1Id m) (personCoords (layout_at tree startId)) = Some p1 /\
         get (spouse2Id m) (personCoords (layout_at tree startId)) = Some p2 /\
         c = Numbers {| x := (x p1 + x p2) / 2; y := (y p1 + y p2) / 2 |}) \/
      (c = NotNumbers /\
       (get (spouse1Id m) (personCoords (layout_at tree startId)) = None \/
        get (spouse2Id m) (personCoords (layout_at tree startId)) = None)))).
Proof.
  assert (Hsome : forall c, get k (marriageCoords (layout_at tree startId)) = Some c ->
    exists m, In m (Object_values (marriages tree)) /\ m_id m = k /\
      between (placement (personCoords (layout_at tree startId)) (spouse1Id m))
              (placement (personCoords (layout_at tree startId)) (spouse2Id m))
      = Some c).
  { intros c Hc. unfold layout_at at 1 in Hc. cbn [marriageCoords] in Hc.
    apply fold_place_marriage_some in Hc. destruct Hc as [Hc|Hc]; [discriminate Hc|].
    exact Hc. }
  split; [split|].
  - intros Hk. split.
    + intros E. apply Hk. subst k. unfold layout_at. cbn [marriageCoords].
      now apply fold_place_marriage_plain.
    + destruct (get k (marriageCoords (layout_at tree startId))) as [c|] eqn:Ec;
        [|congruence].
      destruct (Hsome c eq_refl) as [m [Hin [Hid Hb]]].
      exists m. split; [exact Hin|split; [exact Hid|]].
      apply andb_true_iff. apply (between_both_placed _ m). congruence.
  - intros [Hp [m [Hin [<- [H1 H2]]]]]. unfold layout_at at 1. cbn [marriageCoords].
    apply fold_place_marriage_placed; [exact Hin|exact Hp|].
    unfold both_placed. apply andb_true_iff. split; [exact H1|exact H2].
  - intros c Hc. destruct (Hsome c Hc) as [m [Hin [Hid Hb]]].
    exists m. split; [exact Hin|split; [exact Hid|]].
    exact (between_placement _ m c Hb).
Qed.

(** X25.  The part of C7 the code keeps: with unique marriage ids, a
    marriage whose id is not [__proto__] and whose spouse ids are no names
    inherited from [Object.prototype] has an entry in the marriage
    coordinate map exactly when both its spouses have person coordinates,
    and the entry is then the midpoint of the two, the halving being
    exact. *)
Theorem layout_marriage_midpoint (tree : FamilyTree) (startId : string) (m : Marriage) :
  marriage_ids_unique tree ->
  In m (Object_values (marriages tree)) ->
  m_id m <> proto_name ->
  inherited (spouse1Id m) = false -> inherited (spouse2Id m) = false ->
  (get (m_id m) (marriageCoords (layout_at tree startId)) <> None <->
   get (spouse1Id m) (personCoords (layout_at tree startId)) <> None /\
   get (spouse2Id m) (personCoords (layout_at tree startId)) <> None) /\
  (forall p1 p2,
     get (spouse1Id m) (personCoords (layout_at tree startId)) = Some p1 ->
     get (spouse2Id m) (personCoords (layout_at tree startId)) = Some p2 ->
     get (m_id m) (marriageCoords (layout_at tree startId))
       = Some (Numbers {| x := (x p1 + x p2) / 2; y := (y p1 + y p2) / 2 |}) /\
     2 * ((x p1 + x p2) / 2) = x p1 + x p2 /\
     2 * ((y p1 + y p2) / 2) = y p1 + y p2)%Z.
Proof.
  intros Hu Hm Hp Hi1 Hi2.
  assert (Hget : get (m_id m) (marriageCoords (layout_at tree startId))
                 = get (m_id m) (place_marriage (personCoords (layout_at tree startId)) [] m)).
  { unfold layout_at at 1. cbn [marriageCoords].
    apply fold_place_marriage_get; assumption. }
  rewrite Hget. unfold place_marriage, placement. rewrite Hi1, Hi2. split.
  - destruct (get (spouse1Id m) (personCoords (layout_at tree startId))) as [p1|];
      [destruct (get (spouse2Id m) (personCoords (layout_at tree startId))) as [p2|]|].
    + simpl. rewrite get_put_eq by exact Hp.
      split; [intros _; split; discriminate|discriminate].
    + simpl. split; [congruence|]. intros [_ Hc]. congruence.
    + simpl. split; [congruence|]. intros [Hc _]. congruence.
  - intros p1 p2 H1 H2. rewrite H1, H2. simpl. rewrite get_put_eq by exact Hp.
    split; [reflexivity|].
    exact (layout_marriage_midpoint_exact tree startId _ _ H1 H2).
Qed.

Lemma layout_marriage_midpoint_witness :
  marriage_ids_unique tree_RSCDE /\
  In (mkMarriage "m2" "C" "D") (Object_values (marriages tree_RSCDE)) /\
  "m2" <> proto_name /\ inherited "C" = false /\ inherited "D" = false /\
  (get "m2" (marriageCoords (layout tree_RSCDE)) <> None <->
   get "C" (personCoords (layout tree_RSCDE)) <> None /\
   get "D" (personCoords (layout tree_RSCDE)) <> None).
Proof.
  assert (Hin : In (mkMarriage "m2" "C" "D") (Object_values (marriages tree_RSCDE)))
    by (right; left; reflexivity).
  assert (Hne : "m2" <> proto_name) by discriminate.
  split; [exact marriage_ids_unique_RSCDE|]. split; [exact Hin|].
  split; [exact Hne|]. split; [reflexivity|]. split; [reflexivity|].
  exact (proj1 (layout_marriage_midpoint tree_RSCDE "R" (mkMarriage "m2" "C" "D")
                  marriage_ids_unique_RSCDE Hin Hne eq_refl eq_refl)).
Defined.

(** * The forms and the traversal *)

(** X19.  A spouse added through the form, under ids that the tree does not
    use yet and an id other than [__proto__], gets a generation whenever the
    partner has one, and it is the partner's. *)
Theorem submitSpouse_generation (tree : FamilyTree) (target id mId nm : string)
    (g : Gender) (startId : string) (ly : Z) :
  truthy id = true -> id <> startId -> id <> target ->
  id <> proto_name ->
  ~ In id (mentioned tree) ->
  (forall l, In l (children tree) -> marriageId l <> mId) ->
  get target (computeGenerations (submitSpouse tree target id mId nm g) startId)
    = Some ly ->
  get id (computeGenerations (submitSpouse tree target id mId nm g) startId)
    = Some ly.
Proof.
  intros Ht Hs Hne Hproto Hfresh Hm Htarget.
  set (tree' := submitSpouse tree target id mId nm g) in *.
  set (newM := {| m_id := mId; spouse1Id := target; spouse2Id := id;
                  marriageYear := None |}).
  assert (Hms : marriages tree' = set mId newM (marriages tree)) by reflexivity.
  assert (Hcs : children tree' = children tree) by reflexivity.
  assert (Hold : forall k m, In (k, m) (marriages tree') ->
                             m = newM \/ In (k, m) (marriages tree)).
  { intros k m Hin. rewrite Hms in Hin. apply In_set_inv in Hin. simpl in Hin.
    destruct Hin as [[_ ->]|Hin]; auto. }
  assert (HnewM : In newM (Object_values (marriages tree'))).
  { apply value_entry. exists mId. apply get_In. rewrite Hms. apply get_set_eq. }
  assert (Hsp : spouse_of target newM = id).
  { unfold spouse_of. simpl. now rewrite String.eqb_refl. }
  assert (Hin : In id (keys (computeGenerations tree' startId))).
  { apply (computeGenerations_edge_closed tree' startId target id 0%Z).
    - apply get_some_keys. congruence.
    - rewrite <- Hsp. apply edge_spouse; [exact HnewM| |now rewrite Hsp].
      unfold involves. simpl. now rewrite String.eqb_refl.
    - exact Hproto. }
  assert (Hs1 : spouse1Id newM = target) by reflexivity.
  assert (Htp : target <> proto_name).
  { intros E. rewrite E, computeGenerations_plain in Htarget. discriminate Htarget. }
  clearbody tree' newM.
  apply get_some_keys in Hin.
  destruct (get id (computeGenerations tree' startId)) as [l|] eqn:El; [|congruence].
  f_equal.
  destruct (computeGenerations_cases tree' startId) as [E|[_ E]];
    [rewrite E in El; discriminate El|].
  rewrite E in El, Htarget.
  destruct (good_just (bfs_final_good tree' startId) id l El)
    as [[H _]|[y [d [He Hy]]]]; [congruence|].
  inversion He as [y0 m Hmv Hi Htr Ey Ex Ed|y0 m c Hmv Hi Hc Hml Ey Ex Ed
                   |y0 c m p Hf Hg Hp Htr Ey Ex Ed].
  - apply value_entry in Hmv. destruct Hmv as [k Hk].
    destruct (Hold k m Hk) as [Em|Hk'].
    + rewrite Em in Ex. unfold spouse_of in Ex. rewrite Hs1 in Ex.
      destruct (String.eqb_spec target y) as [Ety|Hd]; [|congruence].
      destruct Hy as [Hy|Hy]; [congruence|].
      rewrite <- Ety, Htarget in Hy. inversion Hy. lia.
    + exfalso. apply Hfresh. destruct (mentioned_spouses tree k m Hk') as [H1 H2].
      rewrite <- Ex. destruct (spouse_of_cases y m) as [-> | ->]; assumption.
  - exfalso. apply Hfresh. rewrite Hcs in Hc. rewrite <- Ex. now apply mentioned_child.
  - exfalso. apply find_some in Hf. destruct Hf as [Hc _]. rewrite Hcs in Hc.
    rewrite Hms in Hg. destruct (String.eqb_spec (marriageId c) mId) as [E'|Hd].
    + exact (Hm c Hc E').
    + rewrite get_set_neq in Hg by exact Hd. apply get_In in Hg.
      apply Hfresh. destruct (mentioned_spouses tree _ m Hg) as [H1 H2].
      destruct Hp as [Hp|[Hp|[]]]; rewrite <- Hp; assumption.
Qed.

Lemma submitSpouse_generation_witness :
  truthy "F" = true /\ "F" <> "R" /\ "F" <> "E" /\ "F" <> proto_name /\
  ~ In "F" (mentioned tree_RSCDE) /\
  (forall l, In l (children tree_RSCDE) -> marriageId l <> "m3") /\
  get "E" (computeGenerations (submitSpouse tree_RSCDE "E" "F" "m3" "Frank" male) "R")
    = Some 2%Z /\
  get "F" (computeGenerations (submitSpouse tree_RSCDE "E" "F" "m3" "Frank" male) "R")
    = Some 2%Z.
Proof.
  assert (H2 : "F" <> "R") by discriminate.
  assert (H3 : "F" <> "E") by discriminate.
  assert (Hp : "F" <> proto_name) by discriminate.
  assert (H4 : ~ In "F" (mentioned tree_RSCDE)).
  { simpl. intros H. repeat (destruct H as [H|H]; [discriminate H|]). exact H. }
  assert (H5 : forall l, In l (children tree_RSCDE) -> marriageId l <> "m3").
  { intros l [<-|[<-|[]]]; discriminate. }
  assert (H6 : get "E" (computeGenerations
                          (submitSpouse tree_RSCDE "E" "F" "m3" "Frank" male) "R")
               = Some 2%Z) by (vm_compute; reflexivity).
  repeat (split; [assumption || reflexivity|]).
  exact (submitSpouse_generation tree_RSCDE "E" "F" "m3" "Frank" male "R" 2%Z
           eq_refl H2 H3 Hp H4 H5 H6).
Defined.

(** X20.  A child added through the form under an id that the tree does
    not use yet, other than [__proto__]: it gets a generation as soon as a
    spouse of a marriage with the form's marriage id has one, and its
    generation is one more than the level of such a spouse, which has an
    entry with that level unless it is [__proto__]. *)
Theorem submitChild_generation (tree : FamilyTree) (target id nm : string)
    (g : Gender) (startId : string) :
  id <> startId -> id <> proto_name -> ~ In id (mentioned tree) ->
  (forall y m, In m (Object_values (marriages tree)) -> m_id m = target ->
     involves y m = true ->
     In y (keys (computeGenerations (submitChild tree target id nm g) startId)) ->
     In id (keys (computeGenerations (submitChild tree target id nm g) startId))) /\
  (forall l, get id (computeGenerations (submitChild tree target id nm g) startId)
             = Some l ->
     exists y m,
       In m (Object_values (marriages tree)) /\ m_id m = target /\
       involves y m = true /\
       (y = proto_name \/
        get y (computeGenerations (submitChild tree target id nm g) startId)
          = Some (l - 1)%Z)).
Proof.
  intros Hs Hproto Hfresh.
  set (tree' := submitChild tree target id nm g).
  assert (Hms : marriages tree' = marriages tree).
  { unfold tree', submitChild. now rewrite addChild_marriages. }
  assert (Hcs : children tree' = children tree ++ [mkLink target id]).
  { unfold tree', submitChild. rewrite addChild_children. simpl.
    destruct (existsb (is_link target id) (children tree)) eqn:E; [|reflexivity].
    exfalso. apply Hfresh. apply existsb_is_link in E.
    exact (mentioned_child tree _ E). }
  clearbody tree'. split.
  - intros y m Hm Hid Hi Hy.
    apply (computeGenerations_edge_closed tree' startId y id 1%Z Hy); [|exact Hproto].
    apply (edge_child tree' y m (mkLink target id)).
    + now rewrite Hms.
    + exact Hi.
    + rewrite Hcs. apply in_or_app. right. now left.
    + simpl. now symmetry.
  - intros l El.
    destruct (computeGenerations_cases tree' startId) as [E|[_ E]];
      [rewrite E in El; discriminate El|].
    rewrite E in *.
    destruct (good_just (bfs_final_good tree' startId) id l El)
      as [[H _]|[y [d [He Hy]]]]; [congruence|].
    inversion He as [y0 m Hmv Hi Htr Ey Ex Ed|y0 m c Hmv Hi Hc Hml Ey Ex Ed
                     |y0 c m p Hf Hg Hp Htr Ey Ex Ed].
    + exfalso. apply Hfresh. rewrite Hms in Hmv. apply value_entry in Hmv.
      destruct Hmv as [k Hk]. destruct (mentioned_spouses tree k m Hk) as [H1 H2].
      rewrite <- Ex. destruct (spouse_of_cases y m) as [-> | ->]; assumption.
    + rewrite Hcs in Hc. apply in_app_or in Hc. destruct Hc as [Hc|[Hc|[]]].
      * exfalso. apply Hfresh. rewrite <- Ex. now apply mentioned_child.
      * exists y, m. rewrite Hms in Hmv. rewrite <- Hc in Hml. simpl in Hml.
        rewrite <- Ed in Hy. repeat split; auto.
    + exfalso. rewrite Hms in Hg. apply get_In in Hg.
      apply Hfresh. destruct (mentioned_spouses tree _ m Hg) as [H1 H2].
      destruct Hp as [Hp|[Hp|[]]]; rewrite <- Hp; assumption.
Qed.

Lemma submitChild_generation_witness :
  "F" <> "R" /\ "F" <> proto_name /\ ~ In "F" (mentioned tree_RSCDE) /\
  get "F" (computeGenerations (submitChild tree_RSCDE "m2" "F" "Fay" female) "R")
    = Some 2%Z /\
  exists y m,
    In m (Object_values (marriages tree_RSCDE)) /\ m_id m = "m2" /\
    involves y m = true /\
    (y = proto_name \/
     get y (computeGenerations (submitChild tree_RSCDE "m2" "F" "Fay" female) "R")
       = Some (2 - 1)%Z).
Proof.
  assert (H1 : "F" <> "R") by discriminate.
  assert (Hp : "F" <> proto_name) by discriminate.
  assert (H2 : ~ In "F" (mentioned tree_RSCDE)).
  { simpl. intros H. repeat (destruct H as [H|H]; [discriminate H|]). exact H. }
  assert (H3 : get "F" (computeGenerations
                          (submitChild tree_RSCDE "m2" "F" "Fay" female) "R")
               = Some 2%Z) by (vm_compute; reflexivity).
  split; [exact H1|]. split; [exact Hp|]. split; [exact H2|]. split; [exact H3|].
  exact (proj2 (submitChild_generation tree_RSCDE "m2" "F" "Fay" female "R" H1 Hp H2)
               2%Z H3).
Defined.

(** ** Parents *)

Lemma find_app {A} (f : A -> bool) l l' :
  find f (l ++ l') = match find f l with Some a => Some a | None => find f l' end.
Proof.
  induction l as [|a l IH]; simpl; [reflexivity|]. now destruct (f a).
Qed.

(** X21.  After the "add parents" form for a person without child link, and
    with non-empty parent ids, [getParentsOfPerson] returns the two new
    parents.  For a person that already has a child link naming another
    marriage, the form changes nothing in what [getParentsOfPerson]
    returns: the first link still decides. *)
Theorem submitParents_parents (tree : FamilyTree)
    (target p1Id p2Id mId p1n p2n : string) :
  (find (fun l => personId l =? target) (children tree) = None ->
   truthy p1Id = true -> truthy p2Id = true ->
   getParentsOfPerson (submitParents tree target p1Id p2Id mId p1n p2n) target
     = [p1Id; p2Id]) /\
  (forall l, find (fun l => personId l =? target) (children tree) = Some l ->
   marriageId l <> mId ->
   getParentsOfPerson (submitParents tree target p1Id p2Id mId p1n p2n) target
     = getParentsOfPerson tree target).
Proof.
  set (newM := {| m_id := mId; spouse1Id := p1Id; spouse2Id := p2Id;
                  marriageYear := None |}).
  assert (Hms : marriages (submitParents tree target p1Id p2Id mId p1n p2n)
                = set mId newM (marriages tree)).
  { unfold submitParents. now rewrite addChild_marriages. }
  assert (Hcs : children (submitParents tree target p1Id p2Id mId p1n p2n)
                = children tree \/
                children (submitParents tree target p1Id p2Id mId p1n p2n)
                = children tree ++ [mkLink mId target]).
  { unfold submitParents. rewrite addChild_children. simpl.
    destruct (existsb _ _); auto. }
  split.
  - intros Hnone H1 H2. unfold getParentsOfPerson. rewrite Hms.
    destruct Hcs as [Hc|Hc].
    + exfalso.
      assert (Hin : In (mkLink mId target)
                       (children (submitParents tree target p1Id p2Id mId p1n p2n)))
        by (unfold submitParents; apply existsb_is_link, addChild_contains).
      rewrite Hc in Hin.
      apply (find_none _ _ Hnone) in Hin. simpl in Hin.
      now rewrite String.eqb_refl in Hin.
    + rewrite Hc, find_app, Hnone. simpl. rewrite String.eqb_refl. simpl.
      rewrite get_set_eq. simpl. now rewrite H1, H2.
  - intros l Hf Hne. unfold getParentsOfPerson. rewrite Hms.
    assert (Hfind : find (fun l => personId l =? target)
                      (children (submitParents tree target p1Id p2Id mId p1n p2n))
                    = Some l).
    { destruct Hcs as [-> | ->]; [exact Hf|]. now rewrite find_app, Hf. }
    rewrite Hfind, Hf. now rewrite get_set_neq.
Qed.

Lemma submitParents_parents_witness :
  find (fun l => personId l =? "R") (children tree_RSCDE) = None /\
  getParentsOfPerson (submitParents tree_RSCDE "R" "P" "Q" "m0" "Pa" "Ma") "R"
    = ["P"; "Q"].
Proof.
  split; [reflexivity|].
  apply (submitParents_parents tree_RSCDE "R" "P" "Q" "m0" "Pa" "Ma"); reflexivity.
Defined.

(** ** Deleting from the application state *)

(** The state [handleDelete] touches. *)
Record AppState := {
  app_tree : FamilyTree;
  focusId : option string;
  editingPerson : option Person
}.

(** [focusId === id] *)
Definition focus_is (focus : option string) (id : string) : bool :=
  match focus with Some f => (f =? id) | None => false end.

(** [handleDelete(id)], given the answer to the confirmation dialog. *)
Definition handleDelete (confirmed : bool) (id : string) (s : AppState) : AppState :=
  if confirmed
  then {| app_tree := deletePerson (app_tree s) id;
          focusId := if focus_is (focusId s) id then None else focusId s;
          editingPerson := None |}
  else s.

(** The focus is empty or a person of the tree. *)
Definition focus_valid (s : AppState) : Prop :=
  match focusId s with
  | Some f => has f (persons (app_tree s)) = true
  | None => True
  end.

(** X22.  [handleDelete] never leaves the focus on the deleted person and
    keeps a valid focus valid; declined, it changes nothing. *)
Theorem handleDelete_focus (id : string) (s : AppState) :
  handleDelete false id s = s /\
  focusId (handleDelete true id s) <> Some id /\
  get id (persons (app_tree (handleDelete true id s))) = None /\
  (focus_valid s -> focus_valid (handleDelete true id s)).
Proof.
  split; [reflexivity|]. split; [|split].
  - simpl. unfold focus_is. destruct (focusId s) as [f|]; [|discriminate].
    destruct (String.eqb_spec f id) as [->|Hne]; [discriminate|congruence].
  - simpl. rewrite get_delete. now rewrite key_eqb_refl.
  - unfold focus_valid. simpl. unfold focus_is.
    destruct (focusId s) as [f|]; [|trivial].
    destruct (String.eqb_spec f id) as [->|Hne]; [trivial|].
    unfold has. rewrite get_delete.
    destruct (key_eqb_spec id f) as [E|_]; [congruence|trivial].
Qed.

Lemma handleDelete_focus_witness :
  focus_valid {| app_tree := tree_RSCDE; focusId := Some "E"; editingPerson := None |} /\
  focus_valid (handleDelete true "R"
                 {| app_tree := tree_RSCDE; focusId := Some "E"; editingPerson := None |}).
Proof.
  assert (H : focus_valid {| app_tree := tree_RSCDE; focusId := Some "E";
                             editingPerson := None |}) by reflexivity.
  split; [exact H|].
  exact (proj2 (proj2 (proj2 (handleDelete_focus "R" _))) H).
Defined.

Close Scope string_scope.
